(** * execution-chain: polymorphic_value, BlockTuple, ExecutionChain and the
    If/Then/Else and Try/Fallback combinators

    The development follows the three headers of the library:
    - [polymorphic_value.h]: control blocks, the owning container and its
      constructors, assignment and accessors, over a heap of control blocks;
    - [ExecutionChain.h]: [BlockTuple], [ExecutionBlock] and [ExecutionChain];
    - [ExecutionFlow.h]: [detail::Call], [IfThen], [IfThenElse], [TryFallback]. *)

From stdpp Require Import base option list gmap fin_sets fin_map_dom infinite.

(** * Outcomes of an operation *)

Inductive exception :=
| bad_polymorphic_value_construction.

(** An operation returns, throws a C++ exception (which the caller can catch),
    stops on a failing [assert], or has undefined behaviour (a null or dangling
    pointer is dereferenced, a block is destroyed twice). The library is
    modelled as built with assertions, that is without [NDEBUG]. *)
Inductive Outcome (A : Type) : Type :=
| Ok (a : A)
| Throw (e : exception)
| AssertionFailure
| Undefined.
Arguments Ok {A} a.
Arguments Throw {A} e.
Arguments AssertionFailure {A}.
Arguments Undefined {A}.

Global Instance Outcome_ret : MRet Outcome := @Ok.
Global Instance Outcome_bind : MBind Outcome := λ A B f m,
  match m with
  | Ok a => f a
  | Throw e => Throw e
  | AssertionFailure => AssertionFailure
  | Undefined => Undefined
  end.

Definition is_Ok {A} (m : Outcome A) : bool :=
  match m with Ok _ => true | _ => false end.

(** * polymorphic_value.h *)

(** [std::type_info], compared with [==]; [typeid(void)] is [typeid_void]. *)
Definition type_info := positive.
Definition typeid_void : type_info := 1%positive.

(** [typeid] of the instance of a class template: one value per template and
    list of arguments. *)
Definition typeid_template (template : positive) (arguments : list type_info)
  : type_info :=
  encode (template :: arguments).

(** Addresses of control blocks ([std::unique_ptr<control_block<T>>] is an
    optional address) and of [polymorphic_value] objects. *)
Abbreviation loc := positive.
Abbreviation addr := positive.

(** [std::unique_ptr<detail::control_block<T>> cb_] *)
Record polymorphic_value := { cb_ : option loc }.

Inductive Deleter :=
| default_delete
| custom_deleter.

Definition is_default_delete (d : Deleter) : bool :=
  match d with default_delete => true | custom_deleter => false end.

Section polymorphic_value.
(** The objects a container can hold: values of the classes derived from
    the interface [T]. *)
Context {Obj : Type}.
(** [typeid(o)] for an object expression [o]. *)
Variable typeid_of : Obj → type_info.
(** [U(t)]: the copy constructor of class [U] applied to the object [t]
    (it slices [t] when [t] is of a class derived from [U]). *)
Variable copy_construct : type_info → Obj → Obj.

(** [detail::default_copy<U>] or a copier supplied by the caller. *)
Inductive Copier :=
| default_copy
| custom_copier (f : Obj → Obj).

Definition is_default_copy (c : Copier) : bool :=
  match c with default_copy => true | custom_copier _ => false end.

(** The call of the copier on the pointee in
    [pointer_control_block<T, U, Copier, _>::clone]. *)
Definition run_copier (U : type_info) (c : Copier) (o : Obj) : Obj :=
  match c with
  | default_copy => copy_construct U o
  | custom_copier f => f o
  end.

(** The three classes derived from [detail::control_block<T>]. A
    [std::unique_ptr] member is an [option]: [None] is the null pointer. *)
#[warnings="-register-all"]
Inductive control_block :=
| direct_control_block (U : type_info) (u_ : Obj)
| pointer_control_block (U : type_info) (p_ : option Obj)
                        (copier : Copier) (deleter : Deleter)
| delegating_control_block (delegate_ : option control_block).

(** [control_block::clone]; the one of [pointer_control_block] starts with
    [assert(p_ && ...)]. *)
Fixpoint clone (cb : control_block) : Outcome control_block :=
  match cb with
  | direct_control_block U u_ =>
      Ok (direct_control_block U (copy_construct U u_))
  | pointer_control_block U p_ copier deleter =>
      match p_ with
      | None => AssertionFailure
      | Some o =>
          Ok (pointer_control_block U (Some (run_copier U copier o)) copier deleter)
      end
  | delegating_control_block delegate_ =>
      match delegate_ with
      | None => Undefined
      | Some d =>
          match clone d with
          | Ok d' => Ok (delegating_control_block (Some d'))
          | Throw e => Throw e
          | AssertionFailure => AssertionFailure
          | Undefined => Undefined
          end
      end
  end.

(** [control_block::ptr]: the address of the held object, here the object
    it points to, or [None] for a null pointer. *)
Fixpoint ptr (cb : control_block) : Outcome (option Obj) :=
  match cb with
  | direct_control_block _ u_ => Ok (Some u_)
  | pointer_control_block _ p_ _ _ => Ok p_
  | delegating_control_block delegate_ =>
      match delegate_ with
      | None => Undefined
      | Some d => ptr d
      end
  end.

(** [control_block::type] *)
Fixpoint type (cb : control_block) : type_info :=
  match cb with
  | direct_control_block _ u_ => typeid_of u_
  | pointer_control_block _ p_ _ _ =>
      match p_ with Some o => typeid_of o | None => typeid_void end
  | delegating_control_block delegate_ =>
      match delegate_ with Some d => type d | None => typeid_void end
  end.

(** Writing through the pointer returned by [ptr]: the held object is
    replaced by its state after a non-const member function ran on it. *)
Fixpoint store (cb : control_block) (o : Obj) : control_block :=
  match cb with
  | direct_control_block U _ => direct_control_block U o
  | pointer_control_block U p_ copier deleter =>
      pointer_control_block U (Some o) copier deleter
  | delegating_control_block delegate_ =>
      match delegate_ with
      | Some d => delegating_control_block (Some (store d o))
      | None => delegating_control_block None
      end
  end.

(** ** The heap of control blocks *)

(** [std::make_unique<control block>(...)]: a new block at an address that
    is not in use. *)
Definition make_unique (cb : control_block) (h : gmap loc control_block)
  : loc * gmap loc control_block :=
  let l := fresh (dom h) in (l, <[l:=cb]> h).

(** [delete] of a control block, as run by [~unique_ptr] and [reset]. *)
Definition destroy (l : loc) (h : gmap loc control_block)
  : Outcome (gmap loc control_block) :=
  match h !! l with
  | Some _ => Ok (delete l h)
  | None => Undefined
  end.

(** [cb_.reset()] and [~polymorphic_value] *)
Definition reset (cb : option loc) (h : gmap loc control_block)
  : Outcome (gmap loc control_block) :=
  match cb with
  | None => Ok h
  | Some l => destroy l h
  end.

(** ** Constructors *)

(** [polymorphic_value()] and [polymorphic_value(std::nullptr_t)] *)
Definition polymorphic_value_null : polymorphic_value := {| cb_ := None |}.

(** [explicit polymorphic_value(U*&& u, C copier = C{}, D deleter = D{})] *)
Definition polymorphic_value_from_pointer
    (U : type_info) (u : option Obj) (copier : Copier) (deleter : Deleter)
    (h : gmap loc control_block)
  : Outcome (polymorphic_value * gmap loc control_block) :=
  match u with
  | None => Ok (polymorphic_value_null, h)
  | Some o =>
      if is_default_delete deleter && is_default_copy copier
         && negb (bool_decide (typeid_of o = U))
      then Throw bad_polymorphic_value_construction
      else
        let '(l, h') := make_unique (pointer_control_block U (Some o) copier deleter) h in
        Ok ({| cb_ := Some l |}, h')
  end.

(** [polymorphic_value(std::unique_ptr<U, D> u, C copier = C{})]; the
    deleter is the one of the [unique_ptr]. *)
Definition polymorphic_value_from_unique_ptr
    (U : type_info) (u : option Obj) (copier : Copier) (deleter : Deleter)
    (h : gmap loc control_block)
  : Outcome (polymorphic_value * gmap loc control_block) :=
  match u with
  | None => Ok (polymorphic_value_null, h)
  | Some o =>
      if is_default_delete deleter && is_default_copy copier
         && negb (bool_decide (typeid_of o = U))
      then Throw bad_polymorphic_value_construction
      else
        let '(l, h') := make_unique (pointer_control_block U (Some o) copier deleter) h in
        Ok ({| cb_ := Some l |}, h')
  end.

(** [polymorphic_value(const polymorphic_value& p)]:
    [cb_(p ? p.cb_->clone() : nullptr)] *)
Definition polymorphic_value_copy (p : polymorphic_value) (h : gmap loc control_block)
  : Outcome (polymorphic_value * gmap loc control_block) :=
  match cb_ p with
  | None => Ok (polymorphic_value_null, h)
  | Some l =>
      match h !! l with
      | None => Undefined
      | Some cb =>
          cb' ← clone cb;
          let '(l', h') := make_unique cb' h in
          Ok ({| cb_ := Some l' |}, h')
      end
  end.

(** ** Observers *)

(** [explicit operator bool() const] *)
Definition operator_bool (p : polymorphic_value) : bool :=
  bool_decide (is_Some (cb_ p)).

(** [T* get()]: [cb_ ? cb_->ptr() : nullptr] *)
Definition get (p : polymorphic_value) (h : gmap loc control_block)
  : Outcome (option Obj) :=
  match cb_ p with
  | None => Ok None
  | Some l =>
      match h !! l with
      | None => Undefined
      | Some cb => ptr cb
      end
  end.

(** [*q] for a pointer [q] *)
Definition dereference (q : option Obj) : Outcome Obj :=
  match q with
  | Some o => Ok o
  | None => Undefined
  end.

(** [operator->] (const and non-const):
    [assert(get() != nullptr && ...); return get();] *)
Definition operator_arrow (p : polymorphic_value)
    (h : gmap loc control_block) : Outcome (option Obj) :=
  q ← get p h;
  if bool_decide (q = None) then AssertionFailure
  else get p h.

(** [operator*] (const and non-const): [return *get();] *)
Definition operator_star (p : polymorphic_value) (h : gmap loc control_block)
  : Outcome Obj :=
  q ← get p h; dereference q.

(** [value()], the same body in its four ref-qualified overloads:
    [return *get();] *)
Definition value (p : polymorphic_value) (h : gmap loc control_block)
  : Outcome Obj :=
  q ← get p h; dereference q.

(** [polymorphic_value::type]: [cb_ ? cb_->type() : typeid(void)] *)
Definition polymorphic_value_type (p : polymorphic_value)
    (h : gmap loc control_block) : Outcome type_info :=
  match cb_ p with
  | None => Ok typeid_void
  | Some l =>
      match h !! l with
      | None => Undefined
      | Some cb => Ok (type cb)
      end
  end.

(** ** Assignment

    The assignment operators take [this] and their argument by reference,
    and [operator=(const polymorphic_value&)] compares the two addresses:
    the containers live in [objects], their control blocks in [blocks]. *)
Record Memory := {
  objects : gmap addr polymorphic_value;
  blocks : gmap loc control_block
}.

(** [polymorphic_value& operator=(const polymorphic_value& p)] *)
Definition assign_copy (this p : addr) (m : Memory) : Outcome Memory :=
  match objects m !! this, objects m !! p with
  | Some self, Some rhs =>
      if decide (p = this) then Ok m
      else
        match cb_ rhs with
        | None =>
            h ← reset (cb_ self) (blocks m);
            Ok {| objects := <[this := {| cb_ := None |}]> (objects m);
                  blocks := h |}
        | Some l =>
            match blocks m !! l with
            | None => Undefined
            | Some cb =>
                cb' ← clone cb;
                let '(l', h1) := make_unique cb' (blocks m) in
                h2 ← reset (cb_ self) h1;
                Ok {| objects := <[this := {| cb_ := Some l' |}]> (objects m);
                      blocks := h2 |}
            end
        end
  | _, _ => Undefined
  end.

(** [polymorphic_value<T>& operator=(std::nullptr_t)] *)
Definition assign_nullptr (this : addr) (m : Memory) : Outcome Memory :=
  match objects m !! this with
  | Some self =>
      h ← reset (cb_ self) (blocks m);
      Ok {| objects := <[this := {| cb_ := None |}]> (objects m);
            blocks := h |}
  | None => Undefined
  end.
End polymorphic_value.

Arguments Copier : clear implicits.
Arguments control_block : clear implicits.
Arguments Memory : clear implicits.

(** ** The other constructors, assignments and observers *)

(** An operand of [operator==]: [nullptr], an object, or a container. *)
Inductive operand (Obj : Type) :=
| operand_nullptr
| operand_object (o : Obj)
| operand_container (p : polymorphic_value).
Arguments operand_nullptr {Obj}.
Arguments operand_object {Obj} o.
Arguments operand_container {Obj} p.

Section polymorphic_value_operations.
Context {Obj : Type}.
Variable typeid_of : Obj → type_info.
Variable copy_construct : type_info → Obj → Obj.
(** [dynamic_cast<U*>] succeeds on an object of the class [D]. *)
Variable derived_from : type_info → type_info → bool.
(** [operator==] of the objects. *)
Variable object_eq : Obj → Obj → bool.

(** [polymorphic_value(const U& u)]: the block holds [U]'s copy of [u].
    (The overload for an rvalue differs in that the block holds the object
    moved from [u].) *)
Definition polymorphic_value_from_value (U : type_info) (u : Obj)
    (h : gmap loc (control_block Obj))
  : Outcome (polymorphic_value * gmap loc (control_block Obj)) :=
  if negb (bool_decide (typeid_of u = U))
  then Throw bad_polymorphic_value_construction
  else
    let '(l, h') := make_unique (direct_control_block U (copy_construct U u)) h in
    Ok ({| cb_ := Some l |}, h').

(** [explicit polymorphic_value(std::in_place_type_t<U>, Ts&&... ts)] and
    [make_polymorphic_value]: the block holds the object [U(ts...)]. *)
Definition polymorphic_value_in_place (U : type_info) (constructed : Obj)
    (h : gmap loc (control_block Obj))
  : Outcome (polymorphic_value * gmap loc (control_block Obj)) :=
  let '(l, h') := make_unique (direct_control_block U constructed) h in
  Ok ({| cb_ := Some l |}, h').

(** [explicit polymorphic_value(const polymorphic_value<U>& p)]:
    [cb_(make_unique<delegating_control_block<T, U>>(polymorphic_value<U>(p).cb_))].
    The block of the temporary copy becomes the delegate: it leaves the
    blocks owned by containers. *)
Definition polymorphic_value_convert_copy (p : polymorphic_value)
    (h : gmap loc (control_block Obj))
  : Outcome (polymorphic_value * gmap loc (control_block Obj)) :=
  '(temporary, h1) ← polymorphic_value_copy copy_construct p h;
  match cb_ temporary with
  | None =>
      let '(l, h2) := make_unique (delegating_control_block None) h1 in
      Ok ({| cb_ := Some l |}, h2)
  | Some l1 =>
      match h1 !! l1 with
      | None => Undefined
      | Some cb =>
          let '(l, h2) := make_unique (delegating_control_block (Some cb)) h1 in
          Ok ({| cb_ := Some l |}, delete l1 h2)
      end
  end.

(** [explicit polymorphic_value(polymorphic_value<U>&& p)]:
    [cb_(make_unique<delegating_control_block<T, U>>(std::move(p.cb_)))].
    The result is the new container, [p] after the move and the heap. *)
Definition polymorphic_value_convert_move (p : polymorphic_value)
    (h : gmap loc (control_block Obj))
  : Outcome (polymorphic_value * polymorphic_value * gmap loc (control_block Obj)) :=
  match cb_ p with
  | None =>
      let '(l, h1) := make_unique (delegating_control_block None) h in
      Ok ({| cb_ := Some l |}, {| cb_ := None |}, h1)
  | Some l1 =>
      match h !! l1 with
      | None => Undefined
      | Some cb =>
          let '(l, h1) := make_unique (delegating_control_block (Some cb)) h in
          Ok ({| cb_ := Some l |}, {| cb_ := None |}, delete l1 h1)
      end
  end.

(** [operator=(const polymorphic_value<U>& p)] on the container [self]:
    [if (!p) { cb_.reset(); return *this; }
     cb_ = make_unique<delegating_control_block<T, U>>(p.cb_->clone());] *)
Definition assign_convert_copy (self p : polymorphic_value)
    (h : gmap loc (control_block Obj))
  : Outcome (polymorphic_value * gmap loc (control_block Obj)) :=
  match cb_ p with
  | None => h' ← reset (cb_ self) h; Ok ({| cb_ := None |}, h')
  | Some l1 =>
      match h !! l1 with
      | None => Undefined
      | Some cb =>
          cb' ← clone copy_construct cb;
          let '(l, h1) := make_unique (delegating_control_block (Some cb')) h in
          h2 ← reset (cb_ self) h1;
          Ok ({| cb_ := Some l |}, h2)
      end
  end.

(** [operator=(polymorphic_value<U>&& p)] on the container [self]:
    [if (!p) { cb_.reset(); return *this; }
     cb_ = make_unique<delegating_control_block<T, U>>(std::move(p.cb_));]
    The result is [self] and [p] after the assignment and the heap. *)
Definition assign_convert_move (self p : polymorphic_value)
    (h : gmap loc (control_block Obj))
  : Outcome (polymorphic_value * polymorphic_value * gmap loc (control_block Obj)) :=
  match cb_ p with
  | None => h' ← reset (cb_ self) h; Ok ({| cb_ := None |}, p, h')
  | Some l1 =>
      match h !! l1 with
      | None => Undefined
      | Some cb =>
          let '(l, h1) := make_unique (delegating_control_block (Some cb)) h in
          h2 ← reset (cb_ self) (delete l1 h1);
          Ok ({| cb_ := Some l |}, {| cb_ := None |}, h2)
      end
  end.

(** [polymorphic_value& operator=(polymorphic_value&& p) noexcept = default]:
    the move assignment of [cb_]. *)
Definition assign_move (this p : addr) (m : Memory Obj) : Outcome (Memory Obj) :=
  match objects m !! this, objects m !! p with
  | Some self, Some rhs =>
      if decide (p = this) then Ok m
      else
        h ← reset (cb_ self) (blocks m);
        Ok {| objects := <[this := rhs]> (<[p := {| cb_ := None |}]> (objects m));
              blocks := h |}
  | _, _ => Undefined
  end.

(** [operator=(U&& p)] for an object [p] that is not a container, in its
    two overloads:
    [*this = polymorphic_value<T>(std::in_place_type<U>, std::forward<U>(p));] and
    [*this = make_polymorphic_value<T>(std::forward<U>(p));].
    The temporary holds [U]'s copy of [p] and is then moved into [this]. *)
Definition assign_value (this : addr) (U : type_info) (p : Obj) (m : Memory Obj)
  : Outcome (Memory Obj) :=
  match objects m !! this with
  | Some self =>
      '(temporary, h1) ← polymorphic_value_in_place U (copy_construct U p) (blocks m);
      h2 ← reset (cb_ self) h1;
      Ok {| objects := <[this := temporary]> (objects m); blocks := h2 |}
  | None => Undefined
  end.

(** [operator=(U*&& rhs)]:
    [*this = polymorphic_value<T>(std::forward<U*>(rhs));] *)
Definition assign_pointer (this : addr) (U : type_info) (rhs : option Obj)
    (m : Memory Obj) : Outcome (Memory Obj) :=
  match objects m !! this with
  | Some self =>
      '(temporary, h1) ← polymorphic_value_from_pointer typeid_of U rhs
                           default_copy default_delete (blocks m);
      h2 ← reset (cb_ self) h1;
      Ok {| objects := <[this := temporary]> (objects m); blocks := h2 |}
  | None => Undefined
  end.

(** [swap(polymorphic_value& p)]: [std::swap(cb_, p.cb_);]; the non-member
    [swap] forwards to it. *)
Definition swap (this p : addr) (m : Memory Obj) : Outcome (Memory Obj) :=
  match objects m !! this, objects m !! p with
  | Some self, Some rhs =>
      Ok {| objects := <[p := self]> (<[this := rhs]> (objects m));
            blocks := blocks m |}
  | _, _ => Undefined
  end.

(** [value_or(U&& default_value)]:
    [if (get() == nullptr) return default_value; return *get();] *)
Definition value_or (p : polymorphic_value) (default_value : Obj)
    (h : gmap loc (control_block Obj)) : Outcome Obj :=
  q ← get p h;
  if bool_decide (q = None) then Ok default_value
  else q' ← get p h; dereference q'.

(** [dynamic_cast<U*>(q)] *)
Definition dynamic_cast (U : type_info) (q : option Obj) : option Obj :=
  match q with
  | Some o => if derived_from (typeid_of o) U then Some o else None
  | None => None
  end.

(** [get_as<U>()]: [return dynamic_cast<U*>(get());] *)
Definition get_as (U : type_info) (p : polymorphic_value)
    (h : gmap loc (control_block Obj)) : Outcome (option Obj) :=
  q ← get p h; Ok (dynamic_cast U q).

(** [is<U>()]: [return get_as<U>() != nullptr;] *)
Definition is_ (U : type_info) (p : polymorphic_value)
    (h : gmap loc (control_block Obj)) : Outcome bool :=
  q ← get_as U p h; Ok (negb (bool_decide (q = None))).

(** [polymorphic_value_detail::is_valid] *)
Definition is_valid (x : operand Obj) : bool :=
  match x with
  | operand_nullptr => false
  | operand_object _ => true
  | operand_container p => operator_bool p
  end.

(** [polymorphic_value_detail::value] *)
Definition value_of (x : operand Obj) (h : gmap loc (control_block Obj))
  : Outcome Obj :=
  match x with
  | operand_nullptr => Undefined
  | operand_object o => Ok o
  | operand_container p => value p h
  end.

(** [std::is_null_pointer_v<std::decay_t<L>>] *)
Definition is_null_pointer (x : operand Obj) : bool :=
  match x with operand_nullptr => true | _ => false end.

(** [operator==(L&& lhs, R&& rhs)] *)
Definition operator_eq (lhs rhs : operand Obj) (h : gmap loc (control_block Obj))
  : Outcome bool :=
  if negb (is_valid lhs) && negb (is_valid rhs) then Ok true
  else if is_null_pointer lhs || is_null_pointer rhs then Ok false
  else if is_valid lhs && is_valid rhs then
    l ← value_of lhs h; r ← value_of rhs h; Ok (object_eq l r)
  else Ok false.

(** [operator!=(L&& lhs, R&& rhs)]: [return !(lhs == rhs);] *)
Definition operator_ne (lhs rhs : operand Obj) (h : gmap loc (control_block Obj))
  : Outcome bool :=
  b ← operator_eq lhs rhs h; Ok (negb b).
End polymorphic_value_operations.

(** * Actions *)

(** The type of [callable(args...)]: [bool], or a type [detail::Call] does not
    look at. *)
Definition result_of (returns_bool : bool) : Type :=
  if returns_bool then bool else unit.

(** The continuation result of a call: the returned [bool], and [true] for
    a call that returns no [bool]. *)
Definition continuation {returns_bool : bool} : result_of returns_bool → bool :=
  match returns_bool with
  | true => λ r, r
  | false => λ _, true
  end.

(** A class with a call operator accepting [Args&...]. [Args] is the tuple of
    the argument instances; the call receives them by reference, so it yields
    them as the callee left them, next to the callee itself and the value it
    returns. A non-const call operator may write the members of the callee;
    a const one, as [IfThen::Execute] and [IfThenElse::Execute] call on their
    members, leaves a callee without mutable members as it was. Actions are
    values: copying one yields an equal action, and an action reaches nothing
    but its members and the arguments. A call returns: an exception thrown
    by an action leaves the library as it is thrown and is not followed. *)
Class Callable (Args A : Type) := {
  (** [std::is_same_v<bool, std::invoke_result_t<A, Args&...>>] *)
  returns_bool : bool;
  invoke : A → Args → A * Args * result_of returns_bool
}.
Arguments returns_bool {Args} A {_}.

(** A class whose call result is converted to [bool] by an [if]. *)
Class Predicate (Args A : Type) := {
  test : A → Args → A * Args * bool
}.

(** [typeid(a)] for an expression [a] of class [A]. *)
Class Typeid (A : Type) := typeid : A → type_info.

(** * ExecutionFlow.h *)

Module detail.
(** [detail::Call] *)
Definition Call {Args A} `{!Callable Args A} (callable : A) (args : Args)
  : A * Args * bool :=
  let '(callable', args', r) := invoke callable args in
  (callable', args',
   (if returns_bool A as b return result_of b → bool
    then λ r, r
    else λ _, true) r).
End detail.

Module IfThenElse.
Record t (If_t Then_t Else_t : Type) := Build {
  m_predicate : If_t;
  m_then : Then_t;
  m_elseThen : Else_t
}.
Arguments Build {_ _ _}.
Arguments m_predicate {_ _ _}.
Arguments m_then {_ _ _}.
Arguments m_elseThen {_ _ _}.

(** [IfThenElse::Execute]; [operator()] forwards to it. *)
Definition Execute {Args If_t Then_t Else_t}
    `{!Predicate Args If_t, !Callable Args Then_t, !Callable Args Else_t}
    (self : t If_t Then_t Else_t) (args : Args)
  : t If_t Then_t Else_t * Args * bool :=
  let '(predicate', args1, b) := test (m_predicate self) args in
  if b then
    let '(then', args2, r) := detail.Call (m_then self) args1 in
    (Build predicate' then' (m_elseThen self), args2, r)
  else
    let '(else', args2, r) := detail.Call (m_elseThen self) args1 in
    (Build predicate' (m_then self) else', args2, r).
End IfThenElse.

Module IfThen.
Record t (If_t Then_t : Type) := Build {
  m_predicate : If_t;
  m_then : Then_t
}.
Arguments Build {_ _}.
Arguments m_predicate {_ _}.
Arguments m_then {_ _}.

(** [IfThen::Execute]; [operator()] forwards to it. *)
Definition Execute {Args If_t Then_t}
    `{!Predicate Args If_t, !Callable Args Then_t}
    (self : t If_t Then_t) (args : Args) : t If_t Then_t * Args * bool :=
  let '(predicate', args1, b) := test (m_predicate self) args in
  if negb b then
    (Build predicate' (m_then self), args1, true)
  else
    let '(then', args2, r) := detail.Call (m_then self) args1 in
    (Build predicate' then', args2, r).

(** [IfThen::Else]: the three members of the result are copies. *)
Definition Else {If_t Then_t Else_t} (self : t If_t Then_t) (elseThen : Else_t)
  : IfThenElse.t If_t Then_t Else_t :=
  IfThenElse.Build (m_predicate self) (m_then self) elseThen.
End IfThen.

Module If.
Record t (If_t : Type) := Build { m_logic : If_t }.
Arguments Build {_}.
Arguments m_logic {_}.

(** [If::Then]: the members of the result are copies. *)
Definition Then {If_t Then_t} (self : t If_t) (then_ : Then_t)
  : IfThen.t If_t Then_t :=
  IfThen.Build (m_logic self) then_.
End If.

Module TryFallback.
Record t (Try_t Fallback_t : Type) := Build {
  m_try : Try_t;
  m_fallback : Fallback_t
}.
Arguments Build {_ _}.
Arguments m_try {_ _}.
Arguments m_fallback {_ _}.

(** [TryFallback::Execute]:
    [detail::Call(m_try, args...) || detail::Call(m_fallback, args...)];
    [operator()] forwards to it. *)
Definition Execute {Args Try_t Fallback_t}
    `{!Callable Args Try_t, !Callable Args Fallback_t}
    (self : t Try_t Fallback_t) (args : Args)
  : t Try_t Fallback_t * Args * bool :=
  let '(try', args1, r1) := detail.Call (m_try self) args in
  if r1 then
    (Build try' (m_fallback self), args1, true)
  else
    let '(fallback', args2, r2) := detail.Call (m_fallback self) args1 in
    (Build try' fallback', args2, r2).
End TryFallback.

Module Try.
Record t (Try_t : Type) := Build { m_try : Try_t }.
Arguments Build {_}.
Arguments m_try {_}.

(** [Try::Fallback]: the members of the result are copies. *)
Definition Fallback {Try_t Fallback_t} (self : t Try_t) (fallback : Fallback_t)
  : TryFallback.t Try_t Fallback_t :=
  TryFallback.Build (m_try self) fallback.
End Try.

(** Template identifiers for [typeid]. *)
Definition IfThenElse_template : positive := 2.
Definition IfThen_template : positive := 3.
Definition TryFallback_template : positive := 4.
Definition BlockTuple_template : positive := 5.
Definition ExecutionBlock_template : positive := 6.

(** The combinators are callables returning [bool]. *)
Global Instance IfThenElse_Callable {Args If_t Then_t Else_t}
    `{!Predicate Args If_t, !Callable Args Then_t, !Callable Args Else_t}
  : Callable Args (IfThenElse.t If_t Then_t Else_t) := {|
  returns_bool := true;
  invoke := IfThenElse.Execute
|}.

Global Instance IfThen_Callable {Args If_t Then_t}
    `{!Predicate Args If_t, !Callable Args Then_t}
  : Callable Args (IfThen.t If_t Then_t) := {|
  returns_bool := true;
  invoke := IfThen.Execute
|}.

Global Instance TryFallback_Callable {Args Try_t Fallback_t}
    `{!Callable Args Try_t, !Callable Args Fallback_t}
  : Callable Args (TryFallback.t Try_t Fallback_t) := {|
  returns_bool := true;
  invoke := TryFallback.Execute
|}.

Global Instance IfThenElse_Typeid {If_t Then_t Else_t}
    `{!Typeid If_t, !Typeid Then_t, !Typeid Else_t}
  : Typeid (IfThenElse.t If_t Then_t Else_t) :=
  λ x, typeid_template IfThenElse_template
         [typeid (IfThenElse.m_predicate x); typeid (IfThenElse.m_then x);
          typeid (IfThenElse.m_elseThen x)].

Global Instance IfThen_Typeid {If_t Then_t} `{!Typeid If_t, !Typeid Then_t}
  : Typeid (IfThen.t If_t Then_t) :=
  λ x, typeid_template IfThen_template
         [typeid (IfThen.m_predicate x); typeid (IfThen.m_then x)].

Global Instance TryFallback_Typeid {Try_t Fallback_t}
    `{!Typeid Try_t, !Typeid Fallback_t}
  : Typeid (TryFallback.t Try_t Fallback_t) :=
  λ x, typeid_template TryFallback_template
         [typeid (TryFallback.m_try x); typeid (TryFallback.m_fallback x)].

(** * ExecutionChain.h *)

(** An element of the [std::tuple<ActionsT...>] of a [BlockTuple]: an action
    together with its class. *)
Module TupleAction.
Record t (Args : Type) := Build {
  action_type : Type;
  action_typeid : Typeid action_type;
  action_callable : Callable Args action_type;
  action : action_type
}.
Arguments Build {_ _ _ _}.
Arguments action_type {_}.
Arguments action_typeid {_}.
Arguments action_callable {_}.
Arguments action {_}.

(** [std::invoke(action, args...)] inside the fold of [BlockTuple::Execute];
    the value the action returns is discarded. *)
Definition invoke_discard {Args} (a : t Args) (args : Args) : t Args * Args :=
  let '(a', args', _) := @invoke _ _ (action_callable a) (action a) args in
  (@Build _ _ (action_typeid a) (action_callable a) a', args').
End TupleAction.

Module BlockTuple.
(** [BlockTuple<ActionsT...>] with its member [m_actions] *)
Record t (Args : Type) := Build { m_actions : list (TupleAction.t Args) }.
Arguments Build {_}.
Arguments m_actions {_}.

(** The fold expression [(std::invoke(actions, args...), ...)]: the
    elements are invoked from the first to the last. *)
Fixpoint invoke_each {Args} (actions : list (TupleAction.t Args)) (args : Args)
  : list (TupleAction.t Args) * Args :=
  match actions with
  | [] => ([], args)
  | a :: rest =>
      let '(a', args1) := TupleAction.invoke_discard a args in
      let '(rest', args2) := invoke_each rest args1 in
      (a' :: rest', args2)
  end.

(** [BlockTuple::Execute] (the const and the non-const overload have the
    same body); [operator()] forwards to it. *)
Definition Execute {Args} (self : t Args) (args : Args) : t Args * Args :=
  let '(actions', args') := invoke_each (m_actions self) args in
  (Build actions', args').

(** [operator|(BlockTuple<OtherActions...> other)]:
    [std::tuple_cat(m_actions, other.m_actions)] copies both tuples. The
    result is the receiver after the call and the returned tuple. *)
Definition pipe_tuple {Args} (self other : t Args) : t Args * t Args :=
  (self, Build (m_actions self ++ m_actions other)).

(** [operator|(OtherActionT&& other)] and [operator|(OtherActionT& other)]:
    [std::tuple_cat] copies [m_actions] into a temporary tuple, whose
    elements and [other] are copied into the members of the result. *)
Definition pipe {Args} (self : t Args) (other : TupleAction.t Args)
  : t Args * t Args :=
  (self, Build (m_actions self ++ [other])).
End BlockTuple.

Module BlockTupleVoid.
(** [BlockTuple<void>], a class without members *)
Inductive t := Build.

(** [operator|(BlockTuple<OtherActions...> other) const] *)
Definition pipe_tuple {Args} (self : t) (other : BlockTuple.t Args)
  : BlockTuple.t Args :=
  BlockTuple.Build (BlockTuple.m_actions other).

(** [operator|(OtherActionT&& other) const] and
    [operator|(OtherActionT& other) const] *)
Definition pipe {Args} (self : t) (other : TupleAction.t Args)
  : BlockTuple.t Args :=
  BlockTuple.Build [other].
End BlockTupleVoid.

(** [static inline constexpr auto start_chain = BlockTuple<void>{};] *)
Definition start_chain : BlockTupleVoid.t := BlockTupleVoid.Build.

Global Instance BlockTuple_Callable {Args} : Callable Args (BlockTuple.t Args) := {|
  returns_bool := false;
  invoke := λ self args, (BlockTuple.Execute self args, ())
|}.

Global Instance BlockTuple_Typeid {Args} : Typeid (BlockTuple.t Args) :=
  λ x, typeid_template BlockTuple_template
         ((λ a, @typeid _ (TupleAction.action_typeid a) (TupleAction.action a))
            <$> BlockTuple.m_actions x).

Module ExecutionBlock.
(** [ExecutionBlock<Action>] seen through [IExecutionBlock]: the member
    [m_action] together with its class. *)
Record t (Args : Type) := Build {
  Action : Type;
  Action_typeid : Typeid Action;
  Action_callable : Callable Args Action;
  m_action : Action
}.
Arguments Build {_ _ _ _}.
Arguments Action {_}.
Arguments Action_typeid {_}.
Arguments Action_callable {_}.
Arguments m_action {_}.

(** [ExecutionBlock::Execute]: [std::invoke(m_action, args...);] after an
    assertion on [std::is_invocable_v], which the [static_assert] of the class
    makes true. The result of the action is discarded. *)
Definition Execute {Args} (self : t Args) (args : Args) : t Args * Args :=
  let '(a', args', _) := @invoke _ _ (Action_callable self) (m_action self) args in
  (@Build _ _ (Action_typeid self) (Action_callable self) a', args').

(** [typeid] of a block *)
Definition typeid_of {Args} (self : t Args) : type_info :=
  typeid_template ExecutionBlock_template
    [@typeid _ (Action_typeid self) (m_action self)].

(** The implicit copy constructor of [ExecutionBlock<Action>] copies
    [m_action]. *)
Definition copy_construct {Args} (U : type_info) (self : t Args) : t Args :=
  self.
End ExecutionBlock.

Module ExecutionChain.
(** [ExecutionChain<Args...>] with its member
    [std::vector<polymorphic_value<IExecutionBlock>> m_blocks]; the control
    blocks of the elements live in a heap
    [gmap loc (control_block (ExecutionBlock.t Args))]. *)
Record t := Build { m_blocks : list polymorphic_value }.

(** [ExecutionChain() {}] *)
Definition empty : t := Build [].

Section operations.
Context {Args : Type}.

(** [create_block]:
    [std::make_unique<ExecutionBlock<std::decay_t<ActionT>>>(action)].
    The action is given by value: the block holds what the caller's
    action was when it was passed. (For a non-const lvalue the constructor
    [ExecutionBlock(Action&)] moves from the caller's action; what is left
    there is not followed.) *)
Definition create_block {ActionT} `{!Typeid ActionT, !Callable Args ActionT}
    (action : ActionT) : ExecutionBlock.t Args :=
  ExecutionBlock.Build action.

(** [m_blocks.emplace_back(u)] for a [std::unique_ptr<ExecutionBlock<A>>]:
    the new element is built by the [unique_ptr] constructor of
    [polymorphic_value] with the default copier and deleter. *)
Definition emplace_back (self : t) (u : ExecutionBlock.t Args)
    (h : gmap loc (control_block (ExecutionBlock.t Args)))
  : Outcome (t * gmap loc (control_block (ExecutionBlock.t Args))) :=
  '(p, h') ← polymorphic_value_from_unique_ptr ExecutionBlock.typeid_of
               (ExecutionBlock.typeid_of u) (Some u) default_copy default_delete h;
  Ok (Build (m_blocks self ++ [p]), h').

(** [append(ActionT&& action)] and [append(BlockTupleT&& action)]:
    [m_blocks.emplace_back(create_block(action)); return *this;] *)
Definition append {ActionT} `{!Typeid ActionT, !Callable Args ActionT}
    (self : t) (action : ActionT)
    (h : gmap loc (control_block (ExecutionBlock.t Args)))
  : Outcome (t * gmap loc (control_block (ExecutionBlock.t Args))) :=
  emplace_back self (create_block action) h.

(** Copy construction of the elements of a range, in order. *)
Fixpoint copy_blocks (blocks : list polymorphic_value)
    (h : gmap loc (control_block (ExecutionBlock.t Args)))
  : Outcome (list polymorphic_value
             * gmap loc (control_block (ExecutionBlock.t Args))) :=
  match blocks with
  | [] => Ok ([], h)
  | p :: rest =>
      '(p', h1) ← polymorphic_value_copy ExecutionBlock.copy_construct p h;
      '(rest', h2) ← copy_blocks rest h1;
      Ok (p' :: rest', h2)
  end.

(** [append(RhsT&&... rhs)] for one chain:
    [m_blocks.insert(m_blocks.end(), rhs.m_blocks.begin(), rhs.m_blocks.end())] *)
Definition append_chain (self rhs : t)
    (h : gmap loc (control_block (ExecutionBlock.t Args)))
  : Outcome (t * gmap loc (control_block (ExecutionBlock.t Args))) :=
  '(copies, h') ← copy_blocks (m_blocks rhs) h;
  Ok (Build (m_blocks self ++ copies), h').

(** [ExecutionChain(const ExecutionChain&) = default]: the vector is
    copied element by element. *)
Definition copy (other : t)
    (h : gmap loc (control_block (ExecutionBlock.t Args)))
  : Outcome (t * gmap loc (control_block (ExecutionBlock.t Args))) :=
  '(copies, h') ← copy_blocks (m_blocks other) h;
  Ok (Build copies, h').

(** The destructors of the elements of a vector. *)
Fixpoint destroy_blocks (blocks : list polymorphic_value)
    (h : gmap loc (control_block (ExecutionBlock.t Args)))
  : Outcome (gmap loc (control_block (ExecutionBlock.t Args))) :=
  match blocks with
  | [] => Ok h
  | p :: rest => h' ← reset (cb_ p) h; destroy_blocks rest h'
  end.

(** [m_blocks.clear()] *)
Definition clear (self : t)
    (h : gmap loc (control_block (ExecutionBlock.t Args)))
  : Outcome (t * gmap loc (control_block (ExecutionBlock.t Args))) :=
  h' ← destroy_blocks (m_blocks self) h;
  Ok (Build [], h').

(** [ExecutionChain(ActionT&& action)] and
    [ExecutionChain(BlockTupleT&& handler)]: [append] on the new chain. *)
Definition construct {ActionT} `{!Typeid ActionT, !Callable Args ActionT}
    (action : ActionT)
    (h : gmap loc (control_block (ExecutionBlock.t Args)))
  : Outcome (t * gmap loc (control_block (ExecutionBlock.t Args))) :=
  append empty action h.

(** [operator=(ActionT&& action)]: [m_blocks.clear(); return append(action);]
    and [operator=(BlockTupleT&& handler)]:
    [m_blocks.clear(); return this->operator|=(handler);] *)
Definition assign {ActionT} `{!Typeid ActionT, !Callable Args ActionT}
    (self : t) (action : ActionT)
    (h : gmap loc (control_block (ExecutionBlock.t Args)))
  : Outcome (t * gmap loc (control_block (ExecutionBlock.t Args))) :=
  '(self', h') ← clear self h;
  append self' action h'.

(** [operator|=(ActionT&& action)] and [operator|=(BlockTupleT&& handler)] *)
Definition pipe_assign {ActionT} `{!Typeid ActionT, !Callable Args ActionT}
    (self : t) (action : ActionT)
    (h : gmap loc (control_block (ExecutionBlock.t Args)))
  : Outcome (t * gmap loc (control_block (ExecutionBlock.t Args))) :=
  append self action h.

(** [ExecutionChain& operator=(ExecutionChain&&) = default]: the elements
    of [this] are destroyed and it takes over those of [rhs], which is
    left empty. The result is [this] and [rhs] after the assignment. *)
Definition move_assign (self rhs : t)
    (h : gmap loc (control_block (ExecutionBlock.t Args)))
  : Outcome (t * t * gmap loc (control_block (ExecutionBlock.t Args))) :=
  h' ← destroy_blocks (m_blocks self) h;
  Ok (rhs, empty, h').

(** The loop of [ExecutionChain::Execute]:
    [for (const auto& block : m_blocks) block.get()->Execute(args...);]
    The block runs on the object its control block holds, where it leaves
    its action as the call left it. *)
Fixpoint Execute_blocks (blocks : list polymorphic_value)
    (h : gmap loc (control_block (ExecutionBlock.t Args))) (args : Args)
  : Outcome (gmap loc (control_block (ExecutionBlock.t Args)) * Args) :=
  match blocks with
  | [] => Ok (h, args)
  | block :: rest =>
      q ← get block h;
      match q, cb_ block with
      | Some o, Some l =>
          let '(o', args') := ExecutionBlock.Execute o args in
          Execute_blocks rest (alter (λ cb, store cb o') l h) args'
      | _, _ => Undefined
      end
  end.

(** [Execute(ExecArgsT&&... args) const]; [operator()] forwards to it. *)
Definition Execute (self : t)
    (h : gmap loc (control_block (ExecutionBlock.t Args))) (args : Args)
  : Outcome (gmap loc (control_block (ExecutionBlock.t Args)) * Args) :=
  Execute_blocks (m_blocks self) h args.

(** The free [operator|(LhsT&& lhs, RhsT&&... rhs)] for one right operand:
    [auto output = lhs; output.append(rhs...); return output;] *)
Definition pipe (lhs rhs : t)
    (h : gmap loc (control_block (ExecutionBlock.t Args)))
  : Outcome (t * gmap loc (control_block (ExecutionBlock.t Args))) :=
  '(output, h1) ← copy lhs h;
  append_chain output rhs h1.
End operations.
End ExecutionChain.

(** * Observing chains and calls *)

Section observation.
Context {Args : Type}.

(** The addresses of the control blocks of a vector of containers. *)
Definition addresses (blocks : list polymorphic_value) : list loc :=
  omap cb_ blocks.

(** The object a container holds, if it holds one. *)
Definition held (h : gmap loc (control_block (ExecutionBlock.t Args)))
    (p : polymorphic_value) : option (ExecutionBlock.t Args) :=
  match get p h with
  | Ok q => q
  | _ => None
  end.

(** The blocks of a chain, as [ExecutionChain::Execute] finds them. *)
Definition contents (h : gmap loc (control_block (ExecutionBlock.t Args)))
    (c : ExecutionChain.t) : list (option (ExecutionBlock.t Args)) :=
  held h <$> ExecutionChain.m_blocks c.

(** A container as [emplace_back] and the copy constructor leave it: it
    owns a live [pointer_control_block] with the default copier and
    deleter, whose pointer is not null. *)
Definition block_ok (h : gmap loc (control_block (ExecutionBlock.t Args)))
    (p : polymorphic_value) : bool :=
  match cb_ p with
  | Some l =>
      match h !! l with
      | Some (pointer_control_block _ (Some _) default_copy default_delete) => true
      | _ => false
      end
  | None => false
  end.

(** The class [U] of the [pointer_control_block<T, U>] a container owns. *)
Definition block_class (h : gmap loc (control_block (ExecutionBlock.t Args)))
    (p : polymorphic_value) : option type_info :=
  match cb_ p with
  | Some l =>
      match h !! l with
      | Some (pointer_control_block U _ _ _) => Some U
      | _ => None
      end
  | None => None
  end.

(** A chain whose containers are as above and own distinct blocks. *)
Definition chain_ok (h : gmap loc (control_block (ExecutionBlock.t Args)))
    (c : ExecutionChain.t) : bool :=
  forallb (block_ok h) (ExecutionChain.m_blocks c)
  && bool_decide (NoDup (addresses (ExecutionChain.m_blocks c))).

(** What a caller sees of an invocation: the arguments and the blocks of
    the chain after the call. *)
Definition observe (c : ExecutionChain.t)
    (h : gmap loc (control_block (ExecutionBlock.t Args))) (args : Args)
  : Outcome (list (option (ExecutionBlock.t Args)) * Args) :=
  '(h', args') ← ExecutionChain.Execute c h args;
  Ok (contents h' c, args').

(** Calling the blocks of a list one after the other, each exactly once,
    on the arguments as the previous one left them. *)
Fixpoint run_in_order (bs : list (ExecutionBlock.t Args)) (args : Args)
  : list (ExecutionBlock.t Args) * Args :=
  match bs with
  | [] => ([], args)
  | b :: rest =>
      let '(b', args1) := ExecutionBlock.Execute b args in
      let '(rest', args2) := run_in_order rest args1 in
      (b' :: rest', args2)
  end.

(** A sequence of [append] calls, one per action of the list. *)
Fixpoint append_all (actions : list (ExecutionBlock.t Args))
    (c : ExecutionChain.t)
    (h : gmap loc (control_block (ExecutionBlock.t Args)))
  : Outcome (ExecutionChain.t * gmap loc (control_block (ExecutionBlock.t Args))) :=
  match actions with
  | [] => Ok (c, h)
  | b :: rest =>
      '(c', h') ← @ExecutionChain.append _ _ (ExecutionBlock.Action_typeid b)
                    (ExecutionBlock.Action_callable b) c (ExecutionBlock.m_action b) h;
      append_all rest c' h'
  end.

(** The overloads of [append]: an action (a tuple is appended as one
    action) or another chain, whose blocks are copied. *)
Inductive append_op :=
| append_action (action : ExecutionBlock.t Args)
| append_blocks_of (rhs : ExecutionChain.t).

Definition apply_append (op : append_op) (c : ExecutionChain.t)
    (h : gmap loc (control_block (ExecutionBlock.t Args)))
  : Outcome (ExecutionChain.t * gmap loc (control_block (ExecutionBlock.t Args))) :=
  match op with
  | append_action b =>
      @ExecutionChain.append _ _ (ExecutionBlock.Action_typeid b)
        (ExecutionBlock.Action_callable b) c (ExecutionBlock.m_action b) h
  | append_blocks_of rhs => ExecutionChain.append_chain c rhs h
  end.

(** A sequence of [append] calls of any overload. *)
Fixpoint append_ops (ops : list append_op) (c : ExecutionChain.t)
    (h : gmap loc (control_block (ExecutionBlock.t Args)))
  : Outcome (ExecutionChain.t * gmap loc (control_block (ExecutionBlock.t Args))) :=
  match ops with
  | [] => Ok (c, h)
  | op :: rest => '(c', h') ← apply_append op c h; append_ops rest c' h'
  end.

(** What an [append] call is given: the action, or the blocks the other
    chain holds. *)
Definition appended (h : gmap loc (control_block (ExecutionBlock.t Args)))
    (op : append_op) : list (option (ExecutionBlock.t Args)) :=
  match op with
  | append_action b => [Some b]
  | append_blocks_of rhs => contents h rhs
  end.

(** The chains a sequence of [append] calls reads are well formed. *)
Definition append_ops_ok (h : gmap loc (control_block (ExecutionBlock.t Args)))
    (ops : list append_op) : bool :=
  forallb (λ op, match op with
                 | append_action _ => true
                 | append_blocks_of rhs => chain_ok h rhs
                 end) ops.

(** The operations that change a chain or the state of its actions. *)
Inductive chain_op :=
| op_append (action : ExecutionBlock.t Args)
| op_append_chain (rhs : ExecutionChain.t)
| op_clear
| op_assign (action : ExecutionBlock.t Args)
| op_invoke (args : Args).

Definition apply_op (op : chain_op) (c : ExecutionChain.t)
    (h : gmap loc (control_block (ExecutionBlock.t Args)))
  : Outcome (ExecutionChain.t * gmap loc (control_block (ExecutionBlock.t Args))) :=
  match op with
  | op_append b =>
      @ExecutionChain.pipe_assign _ _ (ExecutionBlock.Action_typeid b)
        (ExecutionBlock.Action_callable b) c (ExecutionBlock.m_action b) h
  | op_append_chain rhs => ExecutionChain.append_chain c rhs h
  | op_clear =>
      '(c', _, h') ← ExecutionChain.move_assign c ExecutionChain.empty h;
      Ok (c', h')
  | op_assign b =>
      @ExecutionChain.assign _ _ (ExecutionBlock.Action_typeid b)
        (ExecutionBlock.Action_callable b) c (ExecutionBlock.m_action b) h
  | op_invoke args =>
      '(h', _) ← ExecutionChain.Execute c h args;
      Ok (c, h')
  end.

(** The chains an operation reads have to be well formed. *)
Definition op_ok (h : gmap loc (control_block (ExecutionBlock.t Args)))
    (op : chain_op) : bool :=
  match op with
  | op_append_chain rhs => chain_ok h rhs
  | _ => true
  end.
End observation.

(** An action that records its calls: [Logged] wraps an action and appends
    its tag to a log, passed with the arguments, whenever it is called. *)
Record Logged (A : Type) := Log { tag : nat; logged : A }.
Arguments Log {_}.
Arguments tag {_}.
Arguments logged {_}.

Global Instance Logged_Callable {Args A} `{!Callable Args A}
  : Callable (Args * list nat) (Logged A) := {|
  returns_bool := returns_bool A;
  invoke := λ self '(args, log),
    let '(a', args', r) := invoke (logged self) args in
    (Log (tag self) a', (args', log ++ [tag self]), r)
|}.

Global Instance Logged_Predicate {Args A} `{!Predicate Args A}
  : Predicate (Args * list nat) (Logged A) := {|
  test := λ self '(args, log),
    let '(a', args', r) := test (logged self) args in
    (Log (tag self) a', (args', log ++ [tag self]), r)
|}.

Global Instance Logged_Typeid {A} `{!Typeid A} : Typeid (Logged A) :=
  λ x, typeid_template 7%positive [typeid (logged x)].

(** The block of an action, wrapped to record its calls. *)
Definition logged_block {Args} (x : nat * ExecutionBlock.t Args)
  : ExecutionBlock.t (Args * list nat) :=
  @ExecutionBlock.Build _ _
    (@Logged_Typeid _ (ExecutionBlock.Action_typeid x.2))
    (@Logged_Callable _ _ (ExecutionBlock.Action_callable x.2))
    (Log x.1 (ExecutionBlock.m_action x.2)).

(** ** Actions and chains of the test suite *)

(** A lambda without captures that returns nothing:
    [[](Args&... args) { ... }]. *)
Record Lambda (Args : Type) := {
  closure_type : type_info;
  body : Args → Args
}.
Arguments closure_type {_}.
Arguments body {_}.

Global Instance Lambda_Callable {Args} : Callable Args (Lambda Args) := {|
  returns_bool := false;
  invoke := λ self args, (self, body self args, ())
|}.

Global Instance Lambda_Typeid {Args} : Typeid (Lambda Args) := closure_type.

(** A lambda without captures that takes its arguments by value and returns
    [bool]: [[](const int a) { return a > 5; }]. *)
Record LambdaBool (Args : Type) := {
  predicate_type : type_info;
  condition : Args → bool
}.
Arguments predicate_type {_}.
Arguments condition {_}.

Global Instance LambdaBool_Predicate {Args} : Predicate Args (LambdaBool Args) := {|
  test := λ self args, (self, args, condition self args)
|}.

Global Instance LambdaBool_Callable {Args} : Callable Args (LambdaBool Args) := {|
  returns_bool := true;
  invoke := λ self args, (self, args, condition self args)
|}.

Global Instance LambdaBool_Typeid {Args} : Typeid (LambdaBool Args) :=
  predicate_type.

(** [[](int& a) { a += n; }] *)
Definition add_to (n : Z) : Lambda Z :=
  {| closure_type := 16%positive; body := λ a, (a + n)%Z |}.

(** [[](int& a) { a *= 2; }] and [[](int& a) { a /= 2; }] *)
Definition times_two : Lambda Z :=
  {| closure_type := 17%positive; body := λ a, (a * 2)%Z |}.
Definition halve : Lambda Z :=
  {| closure_type := 18%positive; body := λ a, (a `quot` 2)%Z |}.

(** [[](int&) {}] *)
Definition nothing : Lambda Z :=
  {| closure_type := 25%positive; body := λ a, a |}.

(** [[](const int a) { return a > 5; }] *)
Definition greater_than_five : LambdaBool Z :=
  {| predicate_type := 19%positive; condition := λ a, bool_decide (5 < a)%Z |}.

(** [[](int& a, int& b) { a = 1; b = 2; }] and
    [[](int& a, int& b) { a *= 2; b *= 2; }] *)
Definition set_one_two : Lambda (Z * Z) :=
  {| closure_type := 20%positive; body := λ _, (1, 2)%Z |}.
Definition double_both : Lambda (Z * Z) :=
  {| closure_type := 21%positive; body := λ '(a, b), (a * 2, b * 2)%Z |}.

(** [[](int& a, int&) { a++; }] and [[](int&, int& b) { b *= 2; }] *)
Definition increment_first : Lambda (Z * Z) :=
  {| closure_type := 22%positive; body := λ '(a, b), (a + 1, b)%Z |}.
Definition double_second : Lambda (Z * Z) :=
  {| closure_type := 23%positive; body := λ '(a, b), (a, b * 2)%Z |}.

(** The chain of [ShouldBeCopiable] after
    [chain2 |= [](int& a) { a -= 10; }]: two blocks, at the addresses 1
    and 2. *)
Definition test_blocks : gmap loc (control_block (ExecutionBlock.t Z)) :=
  <[2%positive :=
      pointer_control_block
        (ExecutionBlock.typeid_of (ExecutionChain.create_block (add_to (-10))))
        (Some (ExecutionChain.create_block (add_to (-10))))
        default_copy default_delete]>
  (<[1%positive :=
      pointer_control_block
        (ExecutionBlock.typeid_of (ExecutionChain.create_block (add_to 5)))
        (Some (ExecutionChain.create_block (add_to 5)))
        default_copy default_delete]> ∅).

Definition test_chain : ExecutionChain.t :=
  ExecutionChain.Build [{| cb_ := Some 1%positive |}; {| cb_ := Some 2%positive |}].

(** Two containers of integers: the one at address 1 owns the block at 1,
    the one at address 2 is empty. *)
Definition test_memory : Memory Z := {|
  objects := <[2%positive := polymorphic_value_null]>
             (<[1%positive := {| cb_ := Some 1%positive |}]> ∅);
  blocks := <[1%positive := direct_control_block 24%positive 7%Z]> ∅
|}.

(** Objects for the examples: the class of the object and the value of its
    members. The copy constructor of [U] keeps the members and yields an
    object of class [U]. *)
Definition class_of (o : type_info * Z) : type_info := o.1.
Definition copy_as (U : type_info) (o : type_info * Z) : type_info * Z := (U, o.2).

(** Three containers of such objects: the one at address 1 owns a block
    built from a value, the one at address 2 a block built from a pointer,
    the one at address 3 is empty. *)
Definition test_objects : Memory (type_info * Z) := {|
  objects := <[3%positive := polymorphic_value_null]>
             (<[2%positive := {| cb_ := Some 2%positive |}]>
              (<[1%positive := {| cb_ := Some 1%positive |}]> ∅));
  blocks := <[2%positive := pointer_control_block 31%positive
                              (Some (31%positive, 9%Z)) default_copy default_delete]>
            (<[1%positive := direct_control_block 30%positive (30%positive, 7%Z)]> ∅)
|}.

(** The block of an element of a tuple. *)
Definition block_of_action {Args} (a : TupleAction.t Args) : ExecutionBlock.t Args :=
  @ExecutionBlock.Build _ _ (TupleAction.action_typeid a)
    (TupleAction.action_callable a) (TupleAction.action a).

(** An element of a tuple, wrapped to record its calls. *)
Definition logged_action {Args} (x : nat * TupleAction.t Args)
  : TupleAction.t (Args * list nat) :=
  @TupleAction.Build _ _
    (@Logged_Typeid _ (TupleAction.action_typeid x.2))
    (@Logged_Callable _ _ (TupleAction.action_callable x.2))
    (Log x.1 (TupleAction.action x.2)).

(** [[](Args&...) {}] *)
Definition do_nothing {Args} : Lambda Args :=
  {| closure_type := 26%positive; body := λ args, args |}.

(** * Properties *)

(** ** The combinators *)

Lemma Call_continuation {Args A} `{!Callable Args A} (a : A) (args : Args) :
  detail.Call a args
  = ((invoke a args).1.1, (invoke a args).1.2, continuation (invoke a args).2).
Proof.
  unfold detail.Call, continuation.
  destruct (invoke a args) as [[a' args'] r]; simpl.
  by destruct (returns_bool A).
Qed.

Lemma Call_Logged {Args A} `{!Callable Args A} (n : nat) (a : A) (args : Args)
    (log : list nat) :
  detail.Call (Log n a) (args, log)
  = (Log n (detail.Call a args).1.1,
     ((detail.Call a args).1.2, log ++ [n]),
     (detail.Call a args).2).
Proof.
  rewrite !Call_continuation. simpl.
  by destruct (invoke a args) as [[a' args'] r].
Qed.

(** C3. A branch evaluates its predicate on the arguments. When the predicate
    holds, the then-action runs on the arguments as the predicate left them
    and its continuation result is returned. When it does not hold, a branch
    without else returns [true] and leaves the then-action alone, and a
    branch with an else-action runs that action and returns its continuation
    result. With logging actions the log holds the predicate, followed by the
    one action that was chosen. *)
Theorem Branch_semantics {Args If_t Then_t Else_t}
    `{!Predicate Args If_t, !Callable Args Then_t, !Callable Args Else_t}
    (P : If_t) (T : Then_t) (E : Else_t) (args : Args) :
  let p := test P args in
  let t := invoke T p.1.2 in
  let e := invoke E p.1.2 in
  IfThen.Execute (If.Then (If.Build P) T) args
  = (if p.2 then (IfThen.Build p.1.1 t.1.1, t.1.2, continuation t.2)
     else (IfThen.Build p.1.1 T, p.1.2, true))
  ∧ IfThenElse.Execute (IfThen.Else (If.Then (If.Build P) T) E) args
    = (if p.2 then (IfThenElse.Build p.1.1 t.1.1 E, t.1.2, continuation t.2)
       else (IfThenElse.Build p.1.1 T e.1.1, e.1.2, continuation e.2))
  ∧ (IfThen.Execute (If.Then (If.Build (Log 0 P)) (Log 1 T)) (args, [])).1.2.2
    = (if p.2 then [0; 1] else [0])
  ∧ (IfThenElse.Execute
       (IfThen.Else (If.Then (If.Build (Log 0 P)) (Log 1 T)) (Log 2 E))
       (args, [])).1.2.2
    = (if p.2 then [0; 1] else [0; 2]).
Proof.
  intros p t e. subst t e p.
  unfold IfThen.Execute, IfThenElse.Execute, IfThen.Else, If.Then.
  cbn [IfThen.m_predicate IfThen.m_then IfThenElse.m_predicate
       IfThenElse.m_then IfThenElse.m_elseThen If.m_logic test
       Logged_Predicate tag logged].
  destruct (test P args) as [[P' args1] b].
  rewrite !Call_Logged, !Call_continuation.
  destruct b; simpl; auto.
Qed.

(** C4. Try/Fallback evaluates the primary action. When its continuation
    result is [true] the result is [true] and the fallback is not evaluated:
    it is left as it was, the arguments are as the primary left them and a
    logging fallback does not appear in the log. Otherwise the fallback is
    evaluated exactly once, after the primary, and its continuation result
    is returned. *)
Theorem TryFallback_semantics {Args Try_t Fallback_t}
    `{!Callable Args Try_t, !Callable Args Fallback_t}
    (primary : Try_t) (fallback : Fallback_t) (args : Args) :
  let p := invoke primary args in
  let f := invoke fallback p.1.2 in
  TryFallback.Execute (Try.Fallback (Try.Build primary) fallback) args
  = (if continuation p.2 then (TryFallback.Build p.1.1 fallback, p.1.2, true)
     else (TryFallback.Build p.1.1 f.1.1, f.1.2, continuation f.2))
  ∧ (TryFallback.Execute
       (Try.Fallback (Try.Build (Log 0 primary)) (Log 1 fallback))
       (args, [])).1.2.2
    = (if continuation p.2 then [0] else [0; 1]).
Proof.
  intros p f. subst f p.
  unfold TryFallback.Execute, Try.Fallback.
  cbn [TryFallback.m_try TryFallback.m_fallback Try.m_try].
  rewrite !Call_Logged, !Call_continuation.
  destruct (continuation (invoke primary args).2); simpl; auto.
Qed.

(** ** polymorphic_value *)

Section polymorphic_value_properties.
Context {Obj : Type}.
Variable typeid_of : Obj → type_info.
Variable copy_construct : type_info → Obj → Obj.

Lemma is_default_copy_spec (c : Copier Obj) :
  is_default_copy c = true ↔ c = default_copy.
Proof. destruct c; simpl; split; congruence. Qed.

Lemma is_default_delete_spec (d : Deleter) :
  is_default_delete d = true ↔ d = default_delete.
Proof. destruct d; simpl; split; congruence. Qed.

Lemma make_unique_fresh (cb : control_block Obj) (h : gmap loc (control_block Obj)) :
  h !! (make_unique cb h).1 = None.
Proof. apply not_elem_of_dom, is_fresh. Qed.

Lemma get_make_unique_pointer U (o : Obj) copier deleter
    (h : gmap loc (control_block Obj)) :
  let r := make_unique (pointer_control_block U (Some o) copier deleter) h in
  get {| cb_ := Some r.1 |} r.2 = Ok (Some o).
Proof. unfold get, make_unique. simpl. by rewrite lookup_insert_eq. Qed.

(** C6. Construction from a non-null owning pointer or [unique_ptr]
    declared as [U] throws [bad_polymorphic_value_construction] exactly
    when the copier and the deleter are the default ones and [typeid] of
    the pointee is not [typeid(U)]. It throws, it neither aborts nor is
    undefined. In every other case the container is built, [get] returns
    the object, and the blocks that were there are left as they were. A
    null pointer gives the empty container. *)
Theorem construction_from_pointer_checks_the_dynamic_type
    (U : type_info) (o : Obj) (copier : Copier Obj) (deleter : Deleter)
    (h : gmap loc (control_block Obj)) :
  let mismatch :=
    copier = default_copy ∧ deleter = default_delete ∧ typeid_of o ≠ U in
  let built r :=
    ∃ p h', r = Ok (p, h') ∧ get p h' = Ok (Some o)
            ∧ ∀ l, is_Some (h !! l) → h' !! l = h !! l in
  (polymorphic_value_from_pointer typeid_of U (Some o) copier deleter h
     = Throw bad_polymorphic_value_construction ↔ mismatch)
  ∧ (polymorphic_value_from_unique_ptr typeid_of U (Some o) copier deleter h
     = Throw bad_polymorphic_value_construction ↔ mismatch)
  ∧ (mismatch
     ∨ built (polymorphic_value_from_pointer typeid_of U (Some o) copier deleter h)
       ∧ built (polymorphic_value_from_unique_ptr typeid_of U (Some o) copier deleter h))
  ∧ polymorphic_value_from_pointer typeid_of U None copier deleter h
    = Ok (polymorphic_value_null, h)
  ∧ polymorphic_value_from_unique_ptr typeid_of U None copier deleter h
    = Ok (polymorphic_value_null, h).
Proof.
  intros mismatch built.
  assert (Hm : is_default_delete deleter && is_default_copy copier
               && negb (bool_decide (typeid_of o = U)) = true ↔ mismatch).
  { unfold mismatch.
    rewrite !andb_true_iff, negb_true_iff, bool_decide_eq_false.
    rewrite is_default_copy_spec, is_default_delete_spec. tauto. }
  assert (Hb : is_default_delete deleter && is_default_copy copier
               && negb (bool_decide (typeid_of o = U)) = false →
               built (let '(l, h') :=
                        make_unique (pointer_control_block U (Some o) copier deleter) h in
                      Ok ({| cb_ := Some l |}, h'))).
  { intros _. unfold built.
    eexists _, _. split; [reflexivity|]. split.
    - apply (get_make_unique_pointer U o copier deleter h).
    - intros l [cb Hl]. rewrite lookup_insert_ne; [done|].
      intros <-. pose proof (is_fresh (dom h)) as Hf.
      apply Hf, elem_of_dom. eauto. }
  unfold polymorphic_value_from_pointer, polymorphic_value_from_unique_ptr.
  destruct (is_default_delete deleter && is_default_copy copier
            && negb (bool_decide (typeid_of o = U))) eqn:E.
  - split_and!; [tauto | tauto | left; tauto | done | done].
  - split_and!; [| | right; split; apply Hb; done | done | done].
    + split; [done|]. intros Hmis. apply Hm in Hmis. done.
    + split; [done|]. intros Hmis. apply Hm in Hmis. done.
Qed.

(** C8. On an empty container, in a build with assertions, [operator->]
    stops on its assertion, but [operator*] and [value()] dereference the
    null pointer returned by [get] unchecked. *)
Theorem dereference_of_empty_container (h : gmap loc (control_block Obj)) :
  operator_arrow polymorphic_value_null h = AssertionFailure
  ∧ operator_star polymorphic_value_null h = Undefined
  ∧ value polymorphic_value_null h = Undefined.
Proof. done. Qed.

(** C10. Copy assignment of a container to itself returns before anything
    is cloned or released: memory is unchanged. Copy assignment from an
    empty container, and assignment of [nullptr], leave the target empty,
    delete the control block it owned and touch no other container. *)
Theorem assignment_of_empty_and_of_self
    (m : Memory Obj) (this p : addr) (self : polymorphic_value) :
  objects m !! this = Some self →
  objects m !! p = Some polymorphic_value_null →
  (∀ l, cb_ self = Some l → is_Some (blocks m !! l)) →
  let emptied :=
    {| objects := <[this := polymorphic_value_null]> (objects m);
       blocks := match cb_ self with
                 | Some l => delete l (blocks m)
                 | None => blocks m
                 end |} in
  assign_copy copy_construct this this m = Ok m
  ∧ (∃ m', assign_copy copy_construct this p m = Ok m'
           ∧ objects m' = objects emptied ∧ blocks m' = blocks emptied)
  ∧ assign_nullptr this m = Ok emptied
  ∧ objects emptied !! this = Some polymorphic_value_null
  ∧ (∀ l, cb_ self = Some l → blocks emptied !! l = None)
  ∧ (∀ a, a ≠ this → objects emptied !! a = objects m !! a).
Proof.
  intros Hthis Hp Hlive emptied.
  assert (Hreset : reset (cb_ self) (blocks m) = Ok (blocks emptied)).
  { unfold reset, destroy, emptied. simpl. destruct (cb_ self) as [l|]; [|done].
    destruct (Hlive l eq_refl) as [cb ->]. done. }
  split; [|split; [|split; [|split; [|split]]]].
  - unfold assign_copy. rewrite Hthis. by rewrite decide_True.
  - unfold assign_copy. rewrite Hthis, Hp.
    destruct (decide (p = this)) as [->|Hne].
    + exists m. split; [done|].
      assert (self = polymorphic_value_null) as -> by congruence.
      simpl. split; [|done]. by rewrite insert_id.
    + simpl. rewrite Hreset. simpl. eauto.
  - unfold assign_nullptr. rewrite Hthis, Hreset. done.
  - simpl. by rewrite lookup_insert_eq.
  - intros l Hl. simpl. rewrite Hl. by rewrite lookup_delete_eq.
  - intros a Ha. simpl. by rewrite lookup_insert_ne.
Qed.
End polymorphic_value_properties.

(** ** BlockTuple *)

Lemma invoke_each_app {Args} (l1 l2 : list (TupleAction.t Args)) (args : Args) :
  BlockTuple.invoke_each (l1 ++ l2) args
  = ((BlockTuple.invoke_each l1 args).1
       ++ (BlockTuple.invoke_each l2 (BlockTuple.invoke_each l1 args).2).1,
     (BlockTuple.invoke_each l2 (BlockTuple.invoke_each l1 args).2).2).
Proof.
  revert args. induction l1 as [|a l1 IH]; intros args; simpl.
  - by destruct (BlockTuple.invoke_each l2 args).
  - destruct (TupleAction.invoke_discard a args) as [a' args1].
    rewrite IH.
    destruct (BlockTuple.invoke_each l1 args1) as [l1' args2]; simpl.
    by destruct (BlockTuple.invoke_each l2 args2).
Qed.

Lemma BlockTuple_Execute_args {Args} (s : BlockTuple.t Args) (args : Args) :
  (BlockTuple.Execute s args).2 = (BlockTuple.invoke_each (BlockTuple.m_actions s) args).2.
Proof.
  unfold BlockTuple.Execute.
  by destruct (BlockTuple.invoke_each (BlockTuple.m_actions s) args).
Qed.

(** C7. [s | x] and [s | o] return a new tuple with the elements of [s]
    followed by [x], or by the elements of [o], and leave [s] as it was, also
    when [s] is [start_chain]. So [s] can be piped again, and invoking the
    result invokes the elements of [s] and then what was appended. *)
Theorem BlockTuple_pipe_leaves_the_receiver_unchanged {Args}
    (s o : BlockTuple.t Args) (x y : TupleAction.t Args) (args : Args) :
  (BlockTuple.pipe s x).1 = s
  ∧ BlockTuple.m_actions (BlockTuple.pipe s x).2 = BlockTuple.m_actions s ++ [x]
  ∧ (BlockTuple.pipe_tuple s o).1 = s
  ∧ BlockTuple.m_actions (BlockTuple.pipe_tuple s o).2
    = BlockTuple.m_actions s ++ BlockTuple.m_actions o
  ∧ BlockTuple.m_actions (BlockTupleVoid.pipe start_chain x) = [x]
  ∧ BlockTuple.m_actions (BlockTupleVoid.pipe_tuple start_chain o)
    = BlockTuple.m_actions o
  ∧ BlockTuple.m_actions (BlockTuple.pipe (BlockTuple.pipe s x).1 y).2
    = BlockTuple.m_actions s ++ [y]
  ∧ (BlockTuple.Execute (BlockTuple.pipe s x).2 args).2
    = (TupleAction.invoke_discard x (BlockTuple.Execute s args).2).2
  ∧ (BlockTuple.Execute (BlockTuple.pipe_tuple s o).2 args).2
    = (BlockTuple.Execute o (BlockTuple.Execute s args).2).2.
Proof.
  split_and!; try done.
  - rewrite !BlockTuple_Execute_args. simpl. rewrite invoke_each_app. simpl.
    by destruct (TupleAction.invoke_discard x _).
  - rewrite !BlockTuple_Execute_args. simpl. by rewrite invoke_each_app.
Qed.

(** ** ExecutionChain *)

Section chain_properties.
Context {Args : Type}.
Implicit Types h : gmap loc (control_block (ExecutionBlock.t Args)).
Implicit Types p : polymorphic_value.
Implicit Types blocks : list polymorphic_value.
Implicit Types b : ExecutionBlock.t Args.
Local Arguments addresses : simpl never.

Lemma block_ok_spec h p :
  block_ok h p = true ↔
  ∃ l U b, cb_ p = Some l
           ∧ h !! l = Some (pointer_control_block U (Some b) default_copy default_delete).
Proof.
  unfold block_ok. split.
  - intros H. repeat case_match; try done. simplify_eq. eauto.
  - intros (l & U & b & -> & ->). done.
Qed.

Lemma elem_of_addresses l blocks :
  l ∈ addresses blocks ↔ ∃ p, p ∈ blocks ∧ cb_ p = Some l.
Proof. unfold addresses. rewrite list_elem_of_omap. naive_solver. Qed.

Lemma addresses_cons p blocks :
  addresses (p :: blocks)
  = match cb_ p with Some l => l :: addresses blocks | None => addresses blocks end.
Proof. done. Qed.

Lemma addresses_app blocks1 blocks2 :
  addresses (blocks1 ++ blocks2) = addresses blocks1 ++ addresses blocks2.
Proof. apply omap_app. Qed.

Lemma forallb_block_ok h blocks :
  forallb (block_ok h) blocks = true ↔ ∀ p, p ∈ blocks → block_ok h p = true.
Proof.
  rewrite forallb_forall. split; intros H p Hp; apply H.
  - by apply list_elem_of_In.
  - by apply list_elem_of_In.
Qed.

(** Whether a container is well formed, what it holds and the class of
    its block depend on the cell of its own block only. *)
Lemma block_ok_agree h1 h2 p :
  (∀ l, cb_ p = Some l → h1 !! l = h2 !! l) → block_ok h1 p = block_ok h2 p.
Proof.
  intros H. unfold block_ok. destruct (cb_ p) as [l|]; [|done].
  by rewrite (H l eq_refl).
Qed.

Lemma held_agree h1 h2 p :
  (∀ l, cb_ p = Some l → h1 !! l = h2 !! l) → held h1 p = held h2 p.
Proof.
  intros H. unfold held, get. destruct (cb_ p) as [l|]; [|done].
  by rewrite (H l eq_refl).
Qed.

Lemma block_class_agree h1 h2 p :
  (∀ l, cb_ p = Some l → h1 !! l = h2 !! l) → block_class h1 p = block_class h2 p.
Proof.
  intros H. unfold block_class. destruct (cb_ p) as [l|]; [|done].
  by rewrite (H l eq_refl).
Qed.

Lemma held_agree_list h1 h2 blocks :
  (∀ l, l ∈ addresses blocks → h1 !! l = h2 !! l) →
  held h1 <$> blocks = held h2 <$> blocks.
Proof.
  intros H. apply list_fmap_ext. intros i p Hp.
  apply held_agree. intros l Hl. apply H, elem_of_addresses.
  exists p. split; [|done]. by eapply list_elem_of_lookup_2.
Qed.

Lemma block_ok_allocated h blocks l :
  forallb (block_ok h) blocks = true → l ∈ addresses blocks → is_Some (h !! l).
Proof.
  rewrite forallb_block_ok, elem_of_addresses. intros H (p & Hp & Hl).
  apply H, block_ok_spec in Hp as (l' & U & b & Hl' & Hh).
  assert (l' = l) as -> by congruence. eauto.
Qed.
Lemma append_Ok (c : ExecutionChain.t) b h :
  @ExecutionChain.append _ _ (ExecutionBlock.Action_typeid b)
    (ExecutionBlock.Action_callable b) c (ExecutionBlock.m_action b) h
  = Ok (ExecutionChain.Build
          (ExecutionChain.m_blocks c ++ [{| cb_ := Some (fresh (dom h)) |}]),
        <[fresh (dom h) := pointer_control_block (ExecutionBlock.typeid_of b)
                             (Some b) default_copy default_delete]> h).
Proof.
  destruct b as [A ? ? a].
  unfold ExecutionChain.append, ExecutionChain.emplace_back,
    ExecutionChain.create_block, polymorphic_value_from_unique_ptr.
  simpl. by rewrite bool_decide_eq_true_2.
Qed.

Lemma fresh_not_allocated h l : is_Some (h !! l) → fresh (dom h) ≠ l.
Proof.
  intros Hl <-. apply (is_fresh (dom h)). by apply elem_of_dom.
Qed.

(** Running the blocks of a well formed vector returns; it writes the
    cells of these blocks only, and every cell keeps its shape. *)
Lemma Execute_blocks_spec blocks : ∀ h args,
  forallb (block_ok h) blocks = true →
  ∃ h' args', ExecutionChain.Execute_blocks blocks h args = Ok (h', args')
    ∧ dom h' = dom h
    ∧ (∀ l, l ∉ addresses blocks → h' !! l = h !! l)
    ∧ (∀ p, block_ok h' p = block_ok h p)
    ∧ (∀ p, block_class h' p = block_class h p).
Proof.
  induction blocks as [|p blocks IH]; intros h args Hok.
  { exists h, args. done. }
  simpl in Hok. apply andb_true_iff in Hok as [Hp Hrest].
  apply block_ok_spec in Hp as (l & U & b & Hl & Hh).
  simpl. unfold get. rewrite Hl, Hh. simpl.
  destruct (ExecutionBlock.Execute b args) as [b' args1].
  set (h1 := alter (λ cb, store cb b') l h).
  assert (Hh1 : h1 !! l
                = Some (pointer_control_block U (Some b') default_copy default_delete)).
  { unfold h1. by rewrite lookup_alter_eq, Hh. }
  assert (Hok1 : ∀ q, block_ok h1 q = block_ok h q).
  { intros q. unfold block_ok. destruct (cb_ q) as [l'|]; [|done].
    destruct (decide (l' = l)) as [->|Hne].
    - by rewrite Hh1, Hh.
    - unfold h1. by rewrite lookup_alter_ne. }
  assert (Hcl1 : ∀ q, block_class h1 q = block_class h q).
  { intros q. unfold block_class. destruct (cb_ q) as [l'|]; [|done].
    destruct (decide (l' = l)) as [->|Hne].
    - by rewrite Hh1, Hh.
    - unfold h1. by rewrite lookup_alter_ne. }
  destruct (IH h1 args1) as (h' & args' & Hex & Hdom & Hframe & Hok' & Hcl').
  { apply forallb_block_ok. intros q Hq. rewrite Hok1.
    revert q Hq. by apply forallb_block_ok. }
  exists h', args'. split_and!; [done | | | |].
  - rewrite Hdom. unfold h1. apply dom_alter_L.
  - intros l' Hl'. rewrite addresses_cons, Hl in Hl'.
    apply not_elem_of_cons in Hl' as [Hne Hl'].
    rewrite Hframe by done. unfold h1. by apply lookup_alter_ne.
  - intros q. by rewrite Hok', Hok1.
  - intros q. by rewrite Hcl', Hcl1.
Qed.

(** The outcome of running a vector of blocks depends on the cells of
    these blocks only, and so do the cells it leaves. *)
Lemma Execute_blocks_agree (L : loc → Prop) blocks : ∀ h1 h2 args,
  (∀ l, L l → h1 !! l = h2 !! l) →
  (∀ l, l ∈ addresses blocks → L l) →
  match ExecutionChain.Execute_blocks blocks h1 args,
        ExecutionChain.Execute_blocks blocks h2 args with
  | Ok (h1', args1), Ok (h2', args2) =>
      args1 = args2 ∧ ∀ l, L l → h1' !! l = h2' !! l
  | Throw e1, Throw e2 => e1 = e2
  | AssertionFailure, AssertionFailure => True
  | Undefined, Undefined => True
  | _, _ => False
  end.
Proof.
  induction blocks as [|p blocks IH]; intros h1 h2 args Hagree HL.
  { simpl. done. }
  simpl. unfold get. rewrite addresses_cons in HL.
  destruct (cb_ p) as [l|] eqn:Hl; [|done].
  assert (HLl : L l) by (apply HL; set_solver).
  rewrite <- (Hagree l HLl).
  destruct (h1 !! l) as [cb|] eqn:Hh; [|done]. simpl.
  destruct (ptr cb) as [[o|]| | |]; simpl; try done.
  destruct (ExecutionBlock.Execute o args) as [o' args1].
  apply IH.
  - intros l' HL'. destruct (decide (l = l')) as [<-|Hne].
    + by rewrite !lookup_alter_eq, <- Hagree.
    + rewrite !lookup_alter_ne by done. by apply Hagree.
  - intros l' Hl'. apply HL. set_solver.
Qed.

Lemma observe_agree (c : ExecutionChain.t) h1 h2 args :
  (∀ l, l ∈ addresses (ExecutionChain.m_blocks c) → h1 !! l = h2 !! l) →
  observe c h1 args = observe c h2 args.
Proof.
  intros Hagree. unfold observe, ExecutionChain.Execute.
  pose proof (Execute_blocks_agree
                (λ l, l ∈ addresses (ExecutionChain.m_blocks c))
                (ExecutionChain.m_blocks c) h1 h2 args Hagree (λ l H, H)) as H.
  destruct (ExecutionChain.Execute_blocks _ h1 args) as [[h1' a1]| | |],
           (ExecutionChain.Execute_blocks _ h2 args) as [[h2' a2]| | |];
    simpl; try done.
  - destruct H as [-> H]. unfold contents. by rewrite (held_agree_list h1' h2').
  - by rewrite H.
Qed.
(** Copying the containers of a well formed vector returns; the copies own
    new blocks, distinct from each other, which hold what the originals
    hold, and no cell that was there is written. *)
Lemma copy_blocks_spec blocks : ∀ h,
  forallb (block_ok h) blocks = true →
  ∃ copies h', ExecutionChain.copy_blocks blocks h = Ok (copies, h')
    ∧ (∀ l, is_Some (h !! l) → h' !! l = h !! l)
    ∧ (∀ l, l ∈ addresses copies → h !! l = None)
    ∧ NoDup (addresses copies)
    ∧ forallb (block_ok h') copies = true
    ∧ held h' <$> copies = held h <$> blocks.
Proof.
  induction blocks as [|p blocks IH]; intros h Hok.
  { exists [], h. split_and!; try done.
    - intros l Hl. by apply elem_of_nil in Hl.
    - constructor. }
  simpl in Hok. apply andb_true_iff in Hok as [Hp Hrest].
  pose proof Hp as Hp'.
  apply block_ok_spec in Hp' as (l & U & b & Hl & Hh).
  simpl. unfold polymorphic_value_copy. rewrite Hl, Hh. simpl.
  set (l1 := fresh (dom h)).
  set (cb1 := pointer_control_block U (Some b) default_copy default_delete).
  assert (Hl1 : h !! l1 = None) by apply not_elem_of_dom, is_fresh.
  assert (Hold : ∀ l', is_Some (h !! l') → <[l1:=cb1]> h !! l' = h !! l').
  { intros l' Hl'. apply lookup_insert_ne. by apply fresh_not_allocated. }
  destruct (IH (<[l1:=cb1]> h)) as (copies & h' & Hc & Hkeep & Hfresh & Hnd & Hok' & Hheld).
  { apply forallb_block_ok. intros q Hq.
    rewrite forallb_block_ok in Hrest. rewrite <- (Hrest q Hq).
    apply block_ok_agree. intros l' Hl'. apply Hold.
    eapply block_ok_allocated with (blocks := [q]).
    - simpl. by rewrite (Hrest q Hq).
    - apply elem_of_addresses. exists q. split; [apply list_elem_of_here | done]. }
  change (ExecutionBlock.copy_construct U b) with b. fold cb1.
  assert (Hh'l1 : h' !! l1 = Some cb1).
  { rewrite Hkeep; rewrite lookup_insert_eq; eauto. }
  exists ({| cb_ := Some l1 |} :: copies), h'. rewrite Hc. simpl.
  split_and!; [done | | | | |].
  - intros l' Hl'. rewrite Hkeep.
    + by apply Hold.
    + rewrite Hold; done.
  - intros l' Hl'. rewrite addresses_cons in Hl'. simpl in Hl'.
    apply elem_of_cons in Hl' as [->|Hl']; [done|].
    apply Hfresh in Hl'. apply lookup_insert_None in Hl'. tauto.
  - rewrite addresses_cons. simpl. constructor; [|done].
    intros Hin. apply Hfresh in Hin. by rewrite lookup_insert_eq in Hin.
  - simpl. rewrite Hok'. rewrite andb_true_r.
    apply block_ok_spec. exists l1, U, b. done.
  - f_equal.
    + unfold held, get. simpl. by rewrite Hh'l1, Hl, Hh.
    + etrans; [exact Hheld|]. apply held_agree_list. intros l' Hl'. apply Hold.
      by eapply block_ok_allocated.
Qed.

(** Destroying containers that own distinct live blocks returns; it frees
    these blocks and touches no other cell. *)
Lemma destroy_blocks_spec blocks : ∀ h,
  NoDup (addresses blocks) →
  (∀ l, l ∈ addresses blocks → is_Some (h !! l)) →
  ∃ h', ExecutionChain.destroy_blocks blocks h = Ok h'
    ∧ (∀ l, l ∈ addresses blocks → h' !! l = None)
    ∧ (∀ l, l ∉ addresses blocks → h' !! l = h !! l).
Proof.
  induction blocks as [|p blocks IH]; intros h Hnd Hlive.
  { exists h. split_and!; try done. intros l Hl. by apply elem_of_nil in Hl. }
  rewrite addresses_cons in Hnd, Hlive. simpl. unfold reset, destroy.
  destruct (cb_ p) as [l|] eqn:Hl.
  - apply NoDup_cons in Hnd as [Hnotin Hnd].
    destruct (Hlive l) as [cb Hcb]; [apply list_elem_of_here|].
    rewrite Hcb. simpl.
    destruct (IH (delete l h) Hnd) as (h' & Hd & Hfreed & Hframe).
    { intros l' Hl'. rewrite lookup_delete_ne.
      - apply Hlive. by apply list_elem_of_further.
      - intros ->. done. }
    exists h'. split_and!; [done | |].
    + intros l' Hl'. rewrite addresses_cons, Hl in Hl'.
      apply elem_of_cons in Hl' as [->|Hl']; [|by apply Hfreed].
      rewrite Hframe by done. apply lookup_delete_eq.
    + intros l' Hl'. rewrite addresses_cons, Hl in Hl'.
      apply not_elem_of_cons in Hl' as [Hne Hl'].
      rewrite Hframe by done. by apply lookup_delete_ne.
  - simpl. destruct (IH h Hnd Hlive) as (h' & Hd & Hfreed & Hframe).
    exists h'. split_and!; [done | |].
    + intros l' Hl'. rewrite addresses_cons, Hl in Hl'. by apply Hfreed.
    + intros l' Hl'. rewrite addresses_cons, Hl in Hl'. by apply Hframe.
Qed.

Lemma chain_ok_spec (c : ExecutionChain.t) h :
  chain_ok h c = true ↔
  forallb (block_ok h) (ExecutionChain.m_blocks c) = true
  ∧ NoDup (addresses (ExecutionChain.m_blocks c)).
Proof.
  unfold chain_ok. by rewrite andb_true_iff, bool_decide_eq_true.
Qed.
(** An operation on a well formed chain returns, and it writes no cell
    that was allocated beside the blocks of this chain. *)
Lemma apply_op_spec (op : chain_op) (c : ExecutionChain.t) h :
  chain_ok h c = true → op_ok h op = true →
  ∃ c' h', apply_op op c h = Ok (c', h')
    ∧ ∀ l, is_Some (h !! l) → l ∉ addresses (ExecutionChain.m_blocks c) →
           h' !! l = h !! l.
Proof.
  intros [Hok Hnd]%chain_ok_spec Hop.
  assert (Hlive : ∀ l, l ∈ addresses (ExecutionChain.m_blocks c) → is_Some (h !! l)).
  { intros l. by apply block_ok_allocated. }
  destruct op as [b|rhs| |b|args]; simpl.
  - unfold ExecutionChain.pipe_assign. rewrite append_Ok.
    eexists _, _. split; [done|]. intros l Hl _.
    apply lookup_insert_ne. by apply fresh_not_allocated.
  - simpl in Hop. apply chain_ok_spec in Hop as [Hrhs _].
    destruct (copy_blocks_spec _ h Hrhs) as (copies & h' & Hc & Hkeep & _).
    unfold ExecutionChain.append_chain. rewrite Hc. simpl.
    eexists _, _. split; [done|]. intros l Hl _. by apply Hkeep.
  - destruct (destroy_blocks_spec _ h Hnd Hlive) as (h' & Hd & _ & Hframe).
    unfold ExecutionChain.move_assign. rewrite Hd. simpl.
    eexists _, _. split; [done|]. intros l _ Hl. by apply Hframe.
  - destruct (destroy_blocks_spec _ h Hnd Hlive) as (h1 & Hd & _ & Hframe).
    unfold ExecutionChain.assign, ExecutionChain.clear. rewrite Hd. simpl.
    rewrite append_Ok.
    eexists _, _. split; [done|]. intros l Hl Hnotin.
    rewrite lookup_insert_ne; [by apply Hframe|].
    apply fresh_not_allocated. by rewrite Hframe.
  - destruct (Execute_blocks_spec _ h args Hok) as (h' & args' & He & _ & Hframe & _).
    unfold ExecutionChain.Execute. rewrite He. simpl.
    eexists _, _. split; [done|]. intros l _ Hl. by apply Hframe.
Qed.


(** Appending an action to a well formed chain adds one block, which holds
    the action, at the end. *)
Lemma append_spec (c : ExecutionChain.t) b h :
  chain_ok h c = true →
  let l := fresh (dom h) in
  let c' := ExecutionChain.Build
              (ExecutionChain.m_blocks c ++ [{| cb_ := Some l |}]) in
  let h' := <[l := pointer_control_block (ExecutionBlock.typeid_of b) (Some b)
                     default_copy default_delete]> h in
  chain_ok h' c' = true
  ∧ contents h' c' = contents h c ++ [Some b]
  ∧ ∀ l', is_Some (h !! l') → h' !! l' = h !! l'.
Proof.
  intros [Hok Hnd]%chain_ok_spec l c' h'.
  assert (Hlive : ∀ l, l ∈ addresses (ExecutionChain.m_blocks c) → is_Some (h !! l)).
  { intros l'. by apply block_ok_allocated. }
  assert (Hkeep : ∀ l', is_Some (h !! l') → h' !! l' = h !! l').
  { intros l' Hl'. apply lookup_insert_ne. by apply fresh_not_allocated. }
  assert (Hnew : h' !! l = Some (pointer_control_block (ExecutionBlock.typeid_of b)
                                   (Some b) default_copy default_delete)).
  { apply lookup_insert_eq. }
  split_and!; [| |done].
  - apply chain_ok_spec. unfold c'. simpl. split.
    + rewrite forallb_app. simpl. rewrite andb_true_r. apply andb_true_iff. split.
      * apply forallb_block_ok. intros q Hq.
        rewrite forallb_block_ok in Hok. rewrite <- (Hok q Hq).
        apply block_ok_agree. intros l' Hl'.
        apply Hkeep, Hlive, elem_of_addresses. eauto.
      * apply block_ok_spec. eauto.
    + rewrite addresses_app. apply NoDup_app. split_and!; [done | |].
      * intros l' Hl' Hin. apply list_elem_of_singleton in Hin as ->.
        apply Hlive in Hl'. by apply (fresh_not_allocated h l).
      * apply NoDup_singleton.
  - unfold contents, c'. simpl. rewrite fmap_app. f_equal.
    + apply held_agree_list. intros l' Hl'. by apply Hkeep, Hlive.
    + simpl. unfold held, get. simpl. by rewrite Hnew.
Qed.

Lemma append_all_spec (actions : list (ExecutionBlock.t Args)) :
  ∀ (c : ExecutionChain.t) h,
  chain_ok h c = true →
  ∃ c' h', append_all actions c h = Ok (c', h')
    ∧ chain_ok h' c' = true
    ∧ contents h' c' = contents h c ++ (Some <$> actions)
    ∧ ∀ l, is_Some (h !! l) → h' !! l = h !! l.
Proof.
  induction actions as [|b actions IH]; intros c h Hc.
  { exists c, h. split_and!; try done. by rewrite app_nil_r. }
  simpl. rewrite append_Ok. simpl.
  destruct (append_spec c b h Hc) as (Hc1 & Hcont & Hkeep).
  destruct (IH _ _ Hc1) as (c' & h' & Ha & Hc' & Hcont' & Hkeep').
  exists c', h'. split_and!; [done | done | |].
  - rewrite Hcont', Hcont. by rewrite <- app_assoc.
  - intros l Hl. rewrite Hkeep'; [by apply Hkeep|]. by rewrite Hkeep.
Qed.

(** Invoking a well formed chain is calling the blocks it holds one after
    the other, and leaves what these calls leave. *)
Lemma Execute_blocks_run blocks : ∀ h (args : Args) bs,
  forallb (block_ok h) blocks = true →
  NoDup (addresses blocks) →
  held h <$> blocks = Some <$> bs →
  ∃ h', ExecutionChain.Execute_blocks blocks h args
        = Ok (h', (run_in_order bs args).2)
    ∧ held h' <$> blocks = Some <$> (run_in_order bs args).1.
Proof.
  induction blocks as [|p blocks IH]; intros h args bs Hok Hnd Hheld.
  { destruct bs; [|done]. exists h. done. }
  destruct bs as [|b0 bs]; [done|].
  rewrite !fmap_cons in Hheld. injection Hheld as Hp Hheld.
  pose proof Hok as Hok0.
  simpl in Hok. apply andb_true_iff in Hok as [Hpok Hrest].
  apply block_ok_spec in Hpok as (l & U & b & Hl & Hh).
  assert (b0 = b) as ->.
  { unfold held, get in Hp. rewrite Hl, Hh in Hp. simpl in Hp. congruence. }
  rewrite addresses_cons, Hl in Hnd. apply NoDup_cons in Hnd as [Hnotin Hnd].
  destruct (Execute_blocks_spec _ h args Hok0)
    as (h' & args' & He & _ & Hframe & _).
  simpl in He |- *. unfold get in He |- *. rewrite Hl, Hh in He |- *.
  simpl in He |- *.
  destruct (ExecutionBlock.Execute b args) as [b' args1].
  set (h1 := alter (λ cb, store cb b') l h) in *.
  assert (Hh1 : h1 !! l
                = Some (pointer_control_block U (Some b') default_copy default_delete)).
  { unfold h1. by rewrite lookup_alter_eq, Hh. }
  assert (Hother : ∀ l', l' ∈ addresses blocks → h1 !! l' = h !! l').
  { intros l' Hl'. unfold h1. apply lookup_alter_ne. intros ->. done. }
  destruct (IH h1 args1 bs) as (h2 & He2 & Hheld2); [| done | |].
  { apply forallb_block_ok. intros q Hq.
    rewrite forallb_block_ok in Hrest. rewrite <- (Hrest q Hq).
    apply block_ok_agree. intros l' Hl'. apply Hother, elem_of_addresses. eauto. }
  { rewrite <- Hheld. by apply held_agree_list. }
  destruct (Execute_blocks_spec blocks h1 args1) as (h3 & a3 & He3 & _ & Hframe3 & _).
  { apply forallb_block_ok. intros q Hq.
    rewrite forallb_block_ok in Hrest. rewrite <- (Hrest q Hq).
    apply block_ok_agree. intros l' Hl'. apply Hother, elem_of_addresses. eauto. }
  rewrite He2 in He3. injection He3 as <- <-.
  exists h2. destruct (run_in_order bs args1) as [bs' args2]. simpl in *.
  split; [done|]. f_equal; [|done].
  unfold held, get. rewrite Hl. rewrite (Hframe3 l Hnotin), Hh1. done.
Qed.
(** Appending a well formed chain adds copies of its blocks at the end. *)
Lemma append_chain_spec (c rhs : ExecutionChain.t) h :
  chain_ok h c = true → chain_ok h rhs = true →
  ∃ c' h', ExecutionChain.append_chain c rhs h = Ok (c', h')
    ∧ chain_ok h' c' = true
    ∧ contents h' c' = contents h c ++ contents h rhs
    ∧ ∀ l, is_Some (h !! l) → h' !! l = h !! l.
Proof.
  intros [Hok Hnd]%chain_ok_spec [Hrhs _]%chain_ok_spec.
  assert (Hlive : ∀ l, l ∈ addresses (ExecutionChain.m_blocks c) → is_Some (h !! l)).
  { intros l. by apply block_ok_allocated. }
  destruct (copy_blocks_spec _ h Hrhs)
    as (copies & h' & Hc & Hkeep & Hfresh & Hnd2 & Hok2 & Hheld).
  unfold ExecutionChain.append_chain. rewrite Hc. simpl.
  eexists _, _. split; [done|]. split_and!; [| |done].
  - apply chain_ok_spec. simpl. split.
    + rewrite forallb_app, Hok2, andb_true_r.
      apply forallb_block_ok. intros q Hq.
      rewrite forallb_block_ok in Hok. rewrite <- (Hok q Hq).
      apply block_ok_agree. intros l Hl. apply Hkeep, Hlive, elem_of_addresses. eauto.
    + rewrite addresses_app. apply NoDup_app. split_and!; [done | | done].
      intros l Hl Hin. apply Hfresh in Hin. apply Hlive in Hl as [cb Hcb]. congruence.
  - unfold contents. simpl. rewrite fmap_app. f_equal; [|done].
    apply held_agree_list. intros l Hl. by apply Hkeep, Hlive.
Qed.

Lemma chain_ok_kept (c : ExecutionChain.t) h h' :
  chain_ok h c = true →
  (∀ l, is_Some (h !! l) → h' !! l = h !! l) →
  chain_ok h' c = true ∧ contents h' c = contents h c.
Proof.
  intros [Hok Hnd]%chain_ok_spec Hkeep.
  assert (Hlive : ∀ l, l ∈ addresses (ExecutionChain.m_blocks c) → is_Some (h !! l)).
  { intros l. by apply block_ok_allocated. }
  split.
  - apply chain_ok_spec. split; [|done].
    apply forallb_block_ok. intros q Hq.
    rewrite forallb_block_ok in Hok. rewrite <- (Hok q Hq).
    apply block_ok_agree. intros l Hl. apply Hkeep, Hlive, elem_of_addresses. eauto.
  - apply held_agree_list. intros l Hl. by apply Hkeep, Hlive.
Qed.

Lemma append_ops_spec (ops : list append_op) : ∀ (c : ExecutionChain.t) h,
  chain_ok h c = true → append_ops_ok h ops = true →
  ∃ c' h', append_ops ops c h = Ok (c', h')
    ∧ chain_ok h' c' = true
    ∧ contents h' c' = contents h c ++ concat (appended h <$> ops)
    ∧ ∀ l, is_Some (h !! l) → h' !! l = h !! l.
Proof.
  induction ops as [|op ops IH]; intros c h Hc Hops.
  { exists c, h. split_and!; try done. simpl. by rewrite app_nil_r. }
  simpl in Hops. apply andb_true_iff in Hops as [Hop Hops].
  assert (Hstep : ∃ c1 h1, apply_append op c h = Ok (c1, h1)
            ∧ chain_ok h1 c1 = true
            ∧ contents h1 c1 = contents h c ++ appended h op
            ∧ ∀ l, is_Some (h !! l) → h1 !! l = h !! l).
  { destruct op as [b|rhs]; simpl.
    - rewrite append_Ok. destruct (append_spec c b h Hc) as (? & ? & ?). eauto 10.
    - by apply append_chain_spec. }
  destruct Hstep as (c1 & h1 & Ha & Hc1 & Hcont1 & Hkeep1).
  assert (Hops1 : append_ops_ok h1 ops = true
                  ∧ appended h1 <$> ops = appended h <$> ops).
  { clear IH. induction ops as [|op' ops IH']; [done|].
    simpl in Hops. apply andb_true_iff in Hops as [Hop' Hops].
    destruct (IH' Hops) as [Hok' Heq']. rewrite !fmap_cons, Heq'. simpl.
    rewrite Hok', andb_true_r. destruct op' as [b'|rhs']; [done|]. simpl.
    destruct (chain_ok_kept rhs' h h1 Hop' Hkeep1) as [-> ->]. done. }
  destruct Hops1 as [Hops1 Heq].
  destruct (IH c1 h1 Hc1 Hops1) as (c' & h' & Ha' & Hc' & Hcont' & Hkeep').
  exists c', h'. simpl. rewrite Ha. simpl. split_and!; [done | done | |].
  - rewrite Hcont', Hcont1, Heq. by rewrite <- app_assoc.
  - intros l Hl. rewrite Hkeep'; [by apply Hkeep1|]. by rewrite Hkeep1.
Qed.

Lemma block_ok_held blocks h :
  forallb (block_ok h) blocks = true → ∃ bs, held h <$> blocks = Some <$> bs.
Proof.
  induction blocks as [|p blocks IH]; intros Hok.
  { by exists []. }
  simpl in Hok. apply andb_true_iff in Hok as [Hp Hrest].
  destruct (IH Hrest) as [bs Hbs].
  apply block_ok_spec in Hp as (l & U & b & Hl & Hh).
  exists (b :: bs). rewrite !fmap_cons, Hbs. f_equal.
  unfold held, get. by rewrite Hl, Hh.
Qed.

Lemma observe_single_block (l : loc) U b h (args : Args) :
  h !! l = Some (pointer_control_block U (Some b) default_copy default_delete) →
  observe (ExecutionChain.Build [{| cb_ := Some l |}]) h args
  = Ok ([Some (ExecutionBlock.Execute b args).1], (ExecutionBlock.Execute b args).2).
Proof.
  intros Hl. unfold observe, ExecutionChain.Execute. simpl.
  unfold get. simpl. rewrite Hl. simpl.
  destruct (ExecutionBlock.Execute b args) as [b' args']. simpl.
  unfold contents, held, get. simpl. by rewrite lookup_alter_eq, Hl.
Qed.

(** C5. Assigning an action (or a tuple, which is stored as one action) to
    a well formed chain returns; the chain then holds one block, the one
    of that action, as a chain newly constructed from the action does, and
    every invocation of the two gives the same arguments and leaves the
    same action. The blocks the chain owned are freed, and cells beside
    them are not written. *)
Theorem assign_replaces_the_content (c : ExecutionChain.t) b h h0 :
  chain_ok h c = true →
  ∃ c' h' c0 h0',
    @ExecutionChain.assign _ _ (ExecutionBlock.Action_typeid b)
      (ExecutionBlock.Action_callable b) c (ExecutionBlock.m_action b) h
    = Ok (c', h')
    ∧ @ExecutionChain.construct _ _ (ExecutionBlock.Action_typeid b)
        (ExecutionBlock.Action_callable b) (ExecutionBlock.m_action b) h0
      = Ok (c0, h0')
    ∧ contents h' c' = [Some b]
    ∧ contents h0' c0 = [Some b]
    ∧ chain_ok h' c' = true
    ∧ (∀ args, observe c' h' args = observe c0 h0' args)
    ∧ (∀ args, observe c' h' args
               = Ok ([Some (ExecutionBlock.Execute b args).1],
                     (ExecutionBlock.Execute b args).2))
    ∧ (∀ l, l ∈ addresses (ExecutionChain.m_blocks c) →
            l ∉ addresses (ExecutionChain.m_blocks c') → h' !! l = None)
    ∧ (∀ l, l ∉ addresses (ExecutionChain.m_blocks c) →
            l ∉ addresses (ExecutionChain.m_blocks c') → h' !! l = h !! l).
Proof.
  intros [Hok Hnd]%chain_ok_spec.
  assert (Hlive : ∀ l, l ∈ addresses (ExecutionChain.m_blocks c) → is_Some (h !! l)).
  { intros l. by apply block_ok_allocated. }
  destruct (destroy_blocks_spec _ h Hnd Hlive) as (h1 & Hd & Hfreed & Hframe).
  unfold ExecutionChain.assign, ExecutionChain.clear, ExecutionChain.construct.
  rewrite Hd. simpl. rewrite !append_Ok. simpl.
  set (cb := pointer_control_block (ExecutionBlock.typeid_of b) (Some b)
               default_copy default_delete).
  eexists _, _, _, _. split; [done|]. split; [done|].
  assert (Hcont : ∀ h2, contents (<[fresh (dom h2) := cb]> h2)
                          (ExecutionChain.Build [{| cb_ := Some (fresh (dom h2)) |}])
                        = [Some b]).
  { intros h2. unfold contents, held, get. simpl. by rewrite lookup_insert_eq. }
  split_and!.
  - apply Hcont.
  - apply Hcont.
  - apply chain_ok_spec. simpl. split.
    + rewrite andb_true_r. apply block_ok_spec.
      eexists _, _, _. split; [done|]. apply lookup_insert_eq.
    + apply NoDup_singleton.
  - intros args. rewrite !(observe_single_block _ (ExecutionBlock.typeid_of b) b);
      [done | apply lookup_insert_eq | apply lookup_insert_eq].
  - intros args. apply (observe_single_block _ (ExecutionBlock.typeid_of b) b).
    apply lookup_insert_eq.
  - intros l Hl Hnew. rewrite lookup_insert_ne; [by apply Hfreed|].
    intros Heq. apply Hnew. simpl. rewrite Heq. apply list_elem_of_here.
  - intros l Hl Hnew. rewrite lookup_insert_ne; [by apply Hframe|].
    intros Heq. apply Hnew. simpl. rewrite Heq. apply list_elem_of_here.
Qed.
End chain_properties.

Lemma Execute_logged_block {Args} (n : nat) (b : ExecutionBlock.t Args)
    (args : Args) (log : list nat) :
  ExecutionBlock.Execute (logged_block (n, b)) (args, log)
  = (logged_block (n, (ExecutionBlock.Execute b args).1),
     ((ExecutionBlock.Execute b args).2, log ++ [n])).
Proof.
  unfold ExecutionBlock.Execute, logged_block. simpl.
  by destruct (invoke (ExecutionBlock.m_action b) args) as [[a' args1] r].
Qed.

Lemma run_in_order_logged {Args} (tagged : list (nat * ExecutionBlock.t Args)) :
  ∀ (args : Args) (log : list nat),
  (run_in_order (logged_block <$> tagged) (args, log)).2
  = ((run_in_order tagged.*2 args).2, log ++ tagged.*1).
Proof.
  induction tagged as [|[n b] tagged IH]; intros args log.
  { simpl. by rewrite app_nil_r. }
  rewrite !fmap_cons. cbn [run_in_order fst snd].
  rewrite Execute_logged_block.
  destruct (ExecutionBlock.Execute b args) as [b' args1]. cbn [fst snd].
  specialize (IH args1 (log ++ [n])).
  destruct (run_in_order (logged_block <$> tagged) (args1, log ++ [n])) as [bs' s'].
  destruct (run_in_order tagged.*2 args1) as [bs2 args2].
  cbn [fst snd] in *. rewrite IH. by rewrite <- app_assoc.
Qed.

Lemma append_all_length {Args} (actions : list (ExecutionBlock.t Args)) :
  ∀ (c c' : ExecutionChain.t) h h',
  append_all actions c h = Ok (c', h') →
  length (ExecutionChain.m_blocks c')
  = length (ExecutionChain.m_blocks c) + length actions.
Proof.
  induction actions as [|b actions IH]; intros c c' h h' Ha; simpl in Ha.
  { injection Ha as <- <-. simpl. lia. }
  rewrite append_Ok in Ha. simpl in Ha. apply IH in Ha. rewrite Ha. simpl.
  rewrite length_app. simpl. lia.
Qed.

Lemma Execute_appended {Args} (actions : list (ExecutionBlock.t Args))
    (h0 : gmap loc (control_block (ExecutionBlock.t Args))) (args : Args) :
  ∃ c h h', append_all actions ExecutionChain.empty h0 = Ok (c, h)
    ∧ length (ExecutionChain.m_blocks c) = length actions
    ∧ ExecutionChain.Execute c h args = Ok (h', (run_in_order actions args).2)
    ∧ contents h' c = Some <$> (run_in_order actions args).1.
Proof.
  destruct (append_all_spec actions ExecutionChain.empty h0 eq_refl)
    as (c & h & Ha & [Hok Hnd]%chain_ok_spec & Hcont & _).
  destruct (Execute_blocks_run _ h args actions Hok Hnd Hcont) as (h' & He & Hheld).
  exists c, h, h'. split_and!; try done.
  by rewrite (append_all_length _ _ _ _ _ Ha).
Qed.

Lemma Execute_appended_ops {Args} (ops : list append_op)
    (h0 : gmap loc (control_block (ExecutionBlock.t Args))) (args : Args) :
  append_ops_ok h0 ops = true →
  ∃ bs c h h', concat (appended h0 <$> ops) = Some <$> bs
    ∧ append_ops ops ExecutionChain.empty h0 = Ok (c, h)
    ∧ ExecutionChain.Execute c h args = Ok (h', (run_in_order bs args).2)
    ∧ contents h' c = Some <$> (run_in_order bs args).1.
Proof.
  intros Hops.
  destruct (append_ops_spec ops ExecutionChain.empty h0 eq_refl Hops)
    as (c & h & Ha & [Hok Hnd]%chain_ok_spec & Hcont & _).
  destruct (block_ok_held _ h Hok) as [bs Hbs].
  destruct (Execute_blocks_run _ h args bs Hok Hnd Hbs) as (h' & He & Hheld).
  exists bs, c, h, h'. split_and!; try done.
  rewrite <- Hbs. symmetry. exact Hcont.
Qed.

(** C1. A chain built by appending the actions of a list, starting from the
    empty chain, has one block per action. Invoking it returns, and it is
    calling the actions one after the other in the order of the list, each
    on the arguments as the previous one left them, whatever the actions
    return: it gives the arguments these calls give and leaves each action as
    its one call left it. With logging actions, given any tags, the log of an
    invocation is the list of the tags, in the order of the appends. When
    well formed chains are appended as well, the blocks that are called are
    the actions and the blocks of these chains, in the order of the appends. *)
Theorem Execute_calls_every_appended_action_once_in_order {Args}
    (tagged : list (nat * ExecutionBlock.t Args))
    (ops : list append_op)
    (h0 : gmap loc (control_block (ExecutionBlock.t Args)))
    (h0' : gmap loc (control_block (ExecutionBlock.t (Args * list nat))))
    (args : Args) :
  let actions := tagged.*2 in
  (∃ c h h', append_all actions ExecutionChain.empty h0 = Ok (c, h)
     ∧ length (ExecutionChain.m_blocks c) = length actions
     ∧ ExecutionChain.Execute c h args = Ok (h', (run_in_order actions args).2)
     ∧ contents h' c = Some <$> (run_in_order actions args).1)
  ∧ (∃ c h h', append_all (logged_block <$> tagged) ExecutionChain.empty h0' = Ok (c, h)
       ∧ ExecutionChain.Execute c h (args, [])
         = Ok (h', ((run_in_order actions args).2, tagged.*1)))
  ∧ (append_ops_ok h0 ops = true →
     ∃ bs c h h', concat (appended h0 <$> ops) = Some <$> bs
       ∧ append_ops ops ExecutionChain.empty h0 = Ok (c, h)
       ∧ ExecutionChain.Execute c h args = Ok (h', (run_in_order bs args).2)
       ∧ contents h' c = Some <$> (run_in_order bs args).1).
Proof.
  intros actions. split_and!.
  - apply Execute_appended.
  - destruct (Execute_appended (logged_block <$> tagged) h0' (args, []))
      as (c & h & h' & Ha & _ & He & _).
    exists c, h, h'. split; [done|].
    by rewrite He, run_in_order_logged.
  - apply Execute_appended_ops.
Qed.

(** ** The properties on the chains of the test suite *)

Lemma test_chain_ok : chain_ok test_blocks test_chain = true.
Proof. vm_compute. reflexivity. Qed.



Lemma assign_replaces_the_content_test :
  chain_ok test_blocks test_chain = true
  ∧ ∃ c' h', ExecutionChain.assign test_chain times_two test_blocks = Ok (c', h')
      ∧ contents h' c' = [Some (ExecutionChain.create_block times_two)]
      ∧ observe c' h' 21%Z
        = Ok ([Some (ExecutionChain.create_block times_two)], 42%Z).
Proof.
  split; [vm_compute; reflexivity|].
  destruct (assign_replaces_the_content test_chain
              (ExecutionChain.create_block times_two) test_blocks ∅)
    as (c' & h' & c0 & h0' & Ha & _ & Hcont & _ & _ & _ & Hobs & _);
    [vm_compute; reflexivity|].
  exists c', h'. split_and!; [assumption | assumption | apply Hobs].
Defined.

Lemma assignment_of_empty_and_of_self_test :
  objects test_memory !! 1%positive = Some {| cb_ := Some 1%positive |}
  ∧ objects test_memory !! 2%positive = Some polymorphic_value_null
  ∧ assign_copy (λ _ o, o) 1%positive 1%positive test_memory = Ok test_memory
  ∧ assign_nullptr 1%positive test_memory
    = Ok {| objects := <[1%positive := polymorphic_value_null]> (objects test_memory);
            blocks := delete 1%positive (blocks test_memory) |}.
Proof.
  split; [vm_compute; reflexivity|]. split; [vm_compute; reflexivity|].
  destruct (assignment_of_empty_and_of_self (λ _ o, o) test_memory
              1%positive 2%positive {| cb_ := Some 1%positive |})
    as (Hself & _ & Hnull & _).
  - vm_compute; reflexivity.
  - vm_compute; reflexivity.
  - intros l [= <-]. vm_compute. eauto.
  - split; [exact Hself | exact Hnull].
Defined.

Lemma Execute_calls_every_appended_action_once_in_order_test :
  let ops := [append_action (ExecutionChain.create_block times_two);
              append_blocks_of test_chain] in
  append_ops_ok test_blocks ops = true
  ∧ (∃ c h,
       append_all (logged_block <$> [(7, ExecutionChain.create_block times_two);
                                     (3, ExecutionChain.create_block (add_to 5))])
         ExecutionChain.empty ∅ = Ok (c, h)
       ∧ (r ← ExecutionChain.Execute c h (1%Z, []); Ok r.2) = Ok (7%Z, [7; 3]))
  ∧ ∃ c h h', append_ops ops ExecutionChain.empty test_blocks = Ok (c, h)
      ∧ ExecutionChain.Execute c h 10%Z = Ok (h', 15%Z).
Proof.
  intros ops. split; [vm_compute; reflexivity|].
  destruct (Execute_calls_every_appended_action_once_in_order
              [(7, ExecutionChain.create_block times_two);
               (3, ExecutionChain.create_block (add_to 5))]
              ops test_blocks ∅ 1%Z)
    as (_ & (c & h & h' & Ha & He) & _).
  destruct (Execute_calls_every_appended_action_once_in_order
              [] ops test_blocks ∅ 10%Z)
    as (_ & _ & Hops).
  destruct Hops as (bs & c2 & h2 & h2' & Hbs & Ha2 & He2 & _);
    [vm_compute; reflexivity|].
  split.
  - exists c, h. split; [exact Ha|]. rewrite He. reflexivity.
  - exists c2, h2, h2'. split; [exact Ha2|]. rewrite He2. f_equal. f_equal.
    assert (bs = [ExecutionChain.create_block times_two;
                  ExecutionChain.create_block (add_to 5);
                  ExecutionChain.create_block (add_to (-10))]) as ->.
    { apply (inj (fmap Some)). rewrite <- Hbs. vm_compute. reflexivity. }
    reflexivity.
Defined.

(** The scenarios of the test suite. *)

Example TestExecute_scenario :
  (c1 ← ExecutionChain.append ExecutionChain.empty set_one_two ∅;
   c2 ← ExecutionChain.append c1.1 double_both c1.2;
   r ← ExecutionChain.Execute c2.1 c2.2 (0, 0)%Z;
   Ok r.2) = Ok (2, 4)%Z.
Proof. vm_compute. reflexivity. Qed.

Example BlockTuple_scenario :
  (BlockTuple.Execute
     (BlockTuple.pipe
        (BlockTupleVoid.pipe start_chain (TupleAction.Build increment_first))
        (TupleAction.Build double_second)).2
     (3, 5)%Z).2 = (4, 10)%Z.
Proof. reflexivity. Qed.

Example IfThenElseFlow_scenario :
  let branch :=
    IfThen.Else (If.Then (If.Build greater_than_five) times_two) halve in
  (IfThenElse.Execute branch 10%Z).1.2 = 20%Z
  ∧ (IfThenElse.Execute branch 4%Z).1.2 = 2%Z.
Proof. split; reflexivity. Qed.

Example ShouldBeCopiable_scenario :
  (r ← ExecutionChain.Execute test_chain test_blocks 0%Z; Ok r.2) = Ok (-5)%Z
  ∧ ('(c2, h1) ← ExecutionChain.copy test_chain test_blocks;
     '(c2', h2) ← ExecutionChain.append c2 (add_to 47) h1;
     r1 ← ExecutionChain.Execute c2' h2 0%Z;
     r2 ← ExecutionChain.Execute test_chain h2 0%Z;
     Ok (r1.2, r2.2)) = Ok (42, -5)%Z.
Proof. split; vm_compute; reflexivity. Qed.

Example ShouldBeChainable_scenario :
  ('(chain, h) ← ExecutionChain.construct (add_to 5) ∅;
   '(chain2, h) ← ExecutionChain.construct (add_to 5) h;
   '(nothing_, h) ← ExecutionChain.construct nothing h;
   '(chain12, h) ← ExecutionChain.pipe chain chain2 h;
   '(chain3, h) ← ExecutionChain.pipe chain12 nothing_ h;
   '(chain, h) ← ExecutionChain.pipe_assign chain (add_to 5) h;
   '(chain2, h) ← ExecutionChain.pipe_assign chain2 (add_to (-10)) h;
   '(chain3, h) ← ExecutionChain.pipe_assign chain3 (add_to 32) h;
   r1 ← ExecutionChain.Execute chain h 0%Z;
   r2 ← ExecutionChain.Execute chain2 h 0%Z;
   r3 ← ExecutionChain.Execute chain3 h 0%Z;
   '(chain, _, h) ← ExecutionChain.move_assign chain ExecutionChain.empty h;
   '(chain2, _, h) ← ExecutionChain.move_assign chain2 ExecutionChain.empty h;
   r4 ← ExecutionChain.Execute chain3 h 0%Z;
   '(nothing_, h) ← ExecutionChain.assign nothing_ (add_to 100) h;
   r5 ← ExecutionChain.Execute chain3 h 0%Z;
   Ok (r1.2, r2.2, r3.2, r4.2, r5.2)) = Ok (10, -5, 42, 42, 42)%Z.
Proof. vm_compute. reflexivity. Qed.

(** * Further properties *)

(** ** polymorphic_value: construction, copies and types *)

Section polymorphic_value_more_properties.
Context {Obj : Type}.
Variable typeid_of : Obj → type_info.
Variable copy_construct : type_info → Obj → Obj.
Implicit Types h : gmap loc (control_block Obj).
Implicit Types cb : control_block Obj.

Lemma fresh_is_free h : h !! fresh (dom h) = None.
Proof. apply not_elem_of_dom, is_fresh. Qed.

Lemma fresh_ne_allocated h l : is_Some (h !! l) → fresh (dom h) ≠ l.
Proof. intros [cb Hl] <-. by rewrite fresh_is_free in Hl. Qed.

Lemma insert_fresh_keeps cb h l :
  is_Some (h !! l) → <[fresh (dom h) := cb]> h !! l = h !! l.
Proof. intros Hl. apply lookup_insert_ne. by apply fresh_ne_allocated. Qed.

Lemma reset_live (c : option loc) h :
  (∀ l, c = Some l → is_Some (h !! l)) →
  reset c h = Ok (match c with Some l => delete l h | None => h end).
Proof.
  intros Hlive. unfold reset, destroy. destruct c as [l|]; [|done].
  by destruct (Hlive l eq_refl) as [cb ->].
Qed.
(** X1. A container built from a pointer, a [unique_ptr] or a value of
    exactly the declared class, with the default copier and deleter, reports
    that class as its type, and so does every copy of it; the copy owns a
    block of its own, holding the copy of the object, and the source still
    holds its object. *)
Theorem copies_of_checked_containers_keep_the_type
    (U : type_info) (o : Obj) h :
  (∀ o', typeid_of (copy_construct U o') = U) →
  typeid_of o = U →
  (∃ p h1 p2 h2,
     polymorphic_value_from_pointer typeid_of U (Some o) default_copy default_delete h
     = Ok (p, h1)
     ∧ polymorphic_value_from_unique_ptr typeid_of U (Some o) default_copy default_delete h
       = Ok (p, h1)
     ∧ polymorphic_value_copy copy_construct p h1 = Ok (p2, h2)
     ∧ cb_ p2 ≠ cb_ p
     ∧ polymorphic_value_type typeid_of p h2 = Ok U
     ∧ polymorphic_value_type typeid_of p2 h2 = Ok U
     ∧ get p h2 = Ok (Some o)
     ∧ get p2 h2 = Ok (Some (copy_construct U o)))
  ∧ (∃ p h1 p2 h2,
       polymorphic_value_from_value typeid_of copy_construct U o h = Ok (p, h1)
       ∧ polymorphic_value_copy copy_construct p h1 = Ok (p2, h2)
       ∧ cb_ p2 ≠ cb_ p
       ∧ polymorphic_value_type typeid_of p h2 = Ok U
       ∧ polymorphic_value_type typeid_of p2 h2 = Ok U
       ∧ get p h2 = Ok (Some (copy_construct U o))
       ∧ get p2 h2 = Ok (Some (copy_construct U (copy_construct U o)))).
Proof.
  intros Hcopy Ho. split.
  - unfold polymorphic_value_from_pointer, polymorphic_value_from_unique_ptr.
    simpl. rewrite (bool_decide_eq_true_2 _ Ho). simpl.
    set (cb := pointer_control_block U (Some o) default_copy default_delete).
    set (l := fresh (dom h)). set (h1 := <[l:=cb]> h).
    assert (Hl : h1 !! l = Some cb) by apply lookup_insert_eq.
    eexists _, h1, _, _. split; [done|]. split; [done|].
    unfold polymorphic_value_copy. simpl. rewrite Hl. simpl.
    set (l2 := fresh (dom h1)).
    assert (Hne : l2 ≠ l) by (apply fresh_ne_allocated; eauto).
    split; [done|].
    unfold polymorphic_value_type, get. simpl.
    rewrite lookup_insert_eq, lookup_insert_ne, Hl by done. simpl.
    rewrite Hcopy, Ho. split_and!; try done; try (intros [= E]; by apply Hne).
  - unfold polymorphic_value_from_value.
    rewrite (bool_decide_eq_true_2 _ Ho). simpl.
    set (cb := direct_control_block U (copy_construct U o)).
    set (l := fresh (dom h)). set (h1 := <[l:=cb]> h).
    assert (Hl : h1 !! l = Some cb) by apply lookup_insert_eq.
    eexists _, h1, _, _. split; [done|].
    unfold polymorphic_value_copy. simpl. rewrite Hl. simpl.
    set (l2 := fresh (dom h1)).
    assert (Hne : l2 ≠ l) by (apply fresh_ne_allocated; eauto).
    split; [done|].
    unfold polymorphic_value_type, get. simpl.
    rewrite lookup_insert_eq, lookup_insert_ne, Hl by done. simpl.
    rewrite !Hcopy. split_and!; try done; try (intros [= E]; by apply Hne).
Qed.

(** X2. The type check is skipped as soon as the deleter is not the default
    one, also when the copier is: a pointer to an object of another class
    than the declared one is then accepted, the container reports the class
    of the object, and its copy, made by the declared class's copy
    constructor, reports the declared class. *)
Theorem custom_deleter_skips_the_type_check (U : type_info) (o : Obj) h :
  (∀ o', typeid_of (copy_construct U o') = U) →
  typeid_of o ≠ U →
  polymorphic_value_from_pointer typeid_of U (Some o) default_copy default_delete h
  = Throw bad_polymorphic_value_construction
  ∧ ∃ p h1 p2 h2,
      polymorphic_value_from_pointer typeid_of U (Some o) default_copy custom_deleter h
      = Ok (p, h1)
      ∧ polymorphic_value_type typeid_of p h1 = Ok (typeid_of o)
      ∧ polymorphic_value_copy copy_construct p h1 = Ok (p2, h2)
      ∧ polymorphic_value_type typeid_of p2 h2 = Ok U
      ∧ get p2 h2 = Ok (Some (copy_construct U o))
      ∧ polymorphic_value_type typeid_of p2 h2 ≠ polymorphic_value_type typeid_of p h2.
Proof.
  intros Hcopy Ho. unfold polymorphic_value_from_pointer. simpl.
  rewrite (bool_decide_eq_false_2 _ Ho). simpl. split; [done|].
  set (cb := pointer_control_block U (Some o) default_copy custom_deleter).
  set (l := fresh (dom h)). set (h1 := <[l:=cb]> h).
  assert (Hl : h1 !! l = Some cb) by apply lookup_insert_eq.
  eexists _, h1, _, _. split; [done|].
  unfold polymorphic_value_copy, polymorphic_value_type, get. simpl.
  rewrite Hl. simpl. split; [done|]. split; [done|].
  set (l2 := fresh (dom h1)).
  assert (Hne : l2 ≠ l) by (apply fresh_ne_allocated; eauto).
  simpl. rewrite lookup_insert_eq, lookup_insert_ne, Hl by done. simpl.
  rewrite Hcopy. split_and!; try done. intros [= E]. by apply Ho.
Qed.

(** X3. Construction from a value throws exactly when [typeid] of the value
    is not the declared class; otherwise the container owns a new block
    holding the declared class's copy of the value and no block that was
    there is written. In-place construction makes no such check. *)
Theorem construction_from_value_checks_the_type
    (U : type_info) (u : Obj) h :
  (polymorphic_value_from_value typeid_of copy_construct U u h
   = Throw bad_polymorphic_value_construction ↔ typeid_of u ≠ U)
  ∧ (typeid_of u ≠ U
     ∨ ∃ p h', polymorphic_value_from_value typeid_of copy_construct U u h = Ok (p, h')
         ∧ get p h' = Ok (Some (copy_construct U u))
         ∧ (∀ l, cb_ p = Some l → h !! l = None)
         ∧ ∀ l, is_Some (h !! l) → h' !! l = h !! l)
  ∧ ∃ p h', polymorphic_value_in_place U u h = Ok (p, h')
      ∧ get p h' = Ok (Some u)
      ∧ (∀ l, cb_ p = Some l → h !! l = None)
      ∧ ∀ l, is_Some (h !! l) → h' !! l = h !! l.
Proof.
  unfold polymorphic_value_from_value, polymorphic_value_in_place. simpl.
  split_and!.
  - destruct (decide (typeid_of u = U)) as [He|Hne].
    + rewrite (bool_decide_eq_true_2 _ He). simpl. split; [done|]. tauto.
    + rewrite (bool_decide_eq_false_2 _ Hne). simpl. tauto.
  - destruct (decide (typeid_of u = U)) as [He|Hne]; [right|by left].
    rewrite (bool_decide_eq_true_2 _ He). simpl.
    eexists _, _. split; [done|]. split_and!.
    + unfold get. simpl. by rewrite lookup_insert_eq.
    + intros l [= <-]. apply fresh_is_free.
    + intros l Hl. by apply insert_fresh_keeps.
  - eexists _, _. split; [done|]. split_and!.
    + unfold get. simpl. by rewrite lookup_insert_eq.
    + intros l [= <-]. apply fresh_is_free.
    + intros l Hl. by apply insert_fresh_keeps.
Qed.
(** X4. Assigning an object to a container never throws: the container
    releases the block it owned and owns a new one holding the declared
    class's copy of the object, whatever the class of the object, where
    construction from the same object throws when the classes differ. No
    other container and no other block is touched. *)
Theorem assignment_of_a_value_never_throws
    (this : addr) (U : type_info) (u : Obj) (m : Memory Obj)
    (self : polymorphic_value) :
  objects m !! this = Some self →
  (∀ l, cb_ self = Some l → is_Some (blocks m !! l)) →
  ∃ m' p',
    assign_value copy_construct this U u m = Ok m'
    ∧ objects m' !! this = Some p'
    ∧ get p' (blocks m') = Ok (Some (copy_construct U u))
    ∧ cb_ p' ≠ cb_ self
    ∧ (∀ l, cb_ self = Some l → blocks m' !! l = None)
    ∧ (∀ a, a ≠ this → objects m' !! a = objects m !! a)
    ∧ (∀ l, is_Some (blocks m !! l) → cb_ self ≠ Some l →
            blocks m' !! l = blocks m !! l)
    ∧ (typeid_of u ≠ U →
       polymorphic_value_from_value typeid_of copy_construct U u (blocks m)
       = Throw bad_polymorphic_value_construction).
Proof.
  intros Hthis Hlive.
  unfold assign_value, polymorphic_value_in_place. rewrite Hthis. simpl.
  set (l := fresh (dom (blocks m))).
  set (cb := direct_control_block U (copy_construct U u)).
  assert (Hold : ∀ l0, cb_ self = Some l0 → l ≠ l0).
  { intros l0 Hl0. apply fresh_ne_allocated. by apply Hlive. }
  rewrite reset_live.
  2:{ intros l0 Hl0. rewrite lookup_insert_ne; [by apply Hlive|by apply Hold]. }
  simpl. eexists _, _. split; [done|]. simpl. split_and!.
  - by rewrite lookup_insert_eq.
  - unfold get. simpl. destruct (cb_ self) as [l0|] eqn:Hself.
    + rewrite lookup_delete_ne, lookup_insert_eq; [done|].
      intros ->. by apply (Hold l).
    + by rewrite lookup_insert_eq.
  - simpl. intros E. by apply (Hold l).
  - intros l0 ->. apply lookup_delete_eq.
  - intros a Ha. by rewrite lookup_insert_ne.
  - intros l0 Hl0 Hne. destruct (cb_ self) as [l1|].
    + rewrite lookup_delete_ne by congruence. by apply insert_fresh_keeps.
    + by apply insert_fresh_keeps.
  - intros Hne. unfold polymorphic_value_from_value.
    by rewrite (bool_decide_eq_false_2 _ Hne).
Qed.

(** X5. Copy assignment from another, non-empty container gives the target
    a clone in a block of its own, at another address than the source's,
    after which the block the target owned is freed; the source keeps its
    block, and no other container is touched. *)
Theorem copy_assignment_clones
    (this p : addr) (m : Memory Obj) (self rhs : polymorphic_value)
    (l : loc) cb cb' :
  p ≠ this →
  objects m !! this = Some self →
  objects m !! p = Some rhs →
  cb_ rhs = Some l →
  blocks m !! l = Some cb →
  clone copy_construct cb = Ok cb' →
  cb_ self ≠ Some l →
  (∀ l0, cb_ self = Some l0 → is_Some (blocks m !! l0)) →
  ∃ m' l',
    assign_copy copy_construct this p m = Ok m'
    ∧ objects m' !! this = Some {| cb_ := Some l' |}
    ∧ l' ≠ l
    ∧ blocks m !! l' = None
    ∧ blocks m' !! l' = Some cb'
    ∧ blocks m' !! l = Some cb
    ∧ objects m' !! p = Some rhs
    ∧ (∀ l0, cb_ self = Some l0 → blocks m' !! l0 = None)
    ∧ (∀ a, a ≠ this → objects m' !! a = objects m !! a).
Proof.
  intros Hne Hthis Hp Hrhs Hl Hclone Hself Hlive.
  unfold assign_copy. rewrite Hthis, Hp, decide_False, Hrhs, Hl, Hclone by done.
  simpl. set (l' := fresh (dom (blocks m))).
  assert (Hfree : blocks m !! l' = None) by apply fresh_is_free.
  assert (Hold : ∀ l0, cb_ self = Some l0 → l' ≠ l0).
  { intros l0 Hl0. apply fresh_ne_allocated. by apply Hlive. }
  assert (Hl' : l' ≠ l) by (apply fresh_ne_allocated; eauto).
  rewrite reset_live.
  2:{ intros l0 Hl0. rewrite lookup_insert_ne; [by apply Hlive|by apply Hold]. }
  simpl. eexists _, l'. split; [done|]. simpl. split_and!; try done.
  - by rewrite lookup_insert_eq.
  - destruct (cb_ self) as [l0|] eqn:E.
    + rewrite lookup_delete_ne, lookup_insert_eq; [done|].
      intros ->. by apply (Hold l').
    + by rewrite lookup_insert_eq.
  - destruct (cb_ self) as [l0|] eqn:E.
    + rewrite lookup_delete_ne by congruence. by rewrite lookup_insert_ne.
    + by rewrite lookup_insert_ne.
  - by rewrite lookup_insert_ne.
  - intros l0 ->. apply lookup_delete_eq.
  - intros a Ha. by rewrite lookup_insert_ne.
Qed.
Variable derived_from : type_info → type_info → bool.
Variable object_eq : Obj → Obj → bool.

(** X6. [swap] exchanges what two containers own and touches no block: each
    then owns what the other owned, the order of the two arguments does not
    matter, and swapping again restores the memory. *)
Theorem swap_exchanges_and_undoes_itself
    (this p : addr) (m : Memory Obj) (self rhs : polymorphic_value) :
  objects m !! this = Some self →
  objects m !! p = Some rhs →
  ∃ m', swap this p m = Ok m'
    ∧ objects m' !! this = Some rhs
    ∧ objects m' !! p = Some self
    ∧ blocks m' = blocks m
    ∧ (∀ a, a ≠ this → a ≠ p → objects m' !! a = objects m !! a)
    ∧ swap p this m = Ok m'
    ∧ swap this p m' = Ok m.
Proof.
  intros Hthis Hp. unfold swap. rewrite Hthis, Hp.
  eexists. split; [done|]. simpl.
  assert (H1 : (<[p:=self]> (<[this:=rhs]> (objects m))) !! this = Some rhs).
  { destruct (decide (p = this)) as [->|Hne].
    - rewrite lookup_insert_eq. congruence.
    - by rewrite lookup_insert_ne, lookup_insert_eq. }
  assert (H2 : (<[p:=self]> (<[this:=rhs]> (objects m))) !! p = Some self).
  { by rewrite lookup_insert_eq. }
  split_and!; try done.
  - intros a Ha1 Ha2. by rewrite !lookup_insert_ne.
  - f_equal. f_equal.
    destruct (decide (p = this)) as [->|Hne].
    + assert (self = rhs) as -> by congruence. done.
    + by apply insert_insert_ne.
  - rewrite H1, H2. destruct m as [objs blks]. simpl in *. f_equal. f_equal.
    apply map_eq. intros a.
    destruct (decide (a = p)) as [->|Ha2].
    { by rewrite lookup_insert_eq. }
    rewrite lookup_insert_ne by done.
    destruct (decide (a = this)) as [->|Ha1].
    { by rewrite lookup_insert_eq. }
    by rewrite !lookup_insert_ne.
Qed.

(** X7. Move assignment from another container hands over its block as it
    is: the target owns the very block the source owned, nothing is cloned
    or allocated, the source is left empty and the block the target owned is
    freed. Move assignment of a container to itself changes nothing. *)
Theorem move_assignment_hands_over_the_block
    (this p : addr) (m : Memory Obj) (self rhs : polymorphic_value) :
  p ≠ this →
  objects m !! this = Some self →
  objects m !! p = Some rhs →
  cb_ self ≠ cb_ rhs ∨ cb_ self = None →
  (∀ l, cb_ self = Some l → is_Some (blocks m !! l)) →
  ∃ m', assign_move this p m = Ok m'
    ∧ objects m' !! this = Some rhs
    ∧ objects m' !! p = Some polymorphic_value_null
    ∧ get rhs (blocks m') = get rhs (blocks m)
    ∧ dom (blocks m') ⊆ dom (blocks m)
    ∧ (∀ l, cb_ self = Some l → blocks m' !! l = None)
    ∧ (∀ l, cb_ self ≠ Some l → blocks m' !! l = blocks m !! l)
    ∧ (∀ a, a ≠ this → a ≠ p → objects m' !! a = objects m !! a)
    ∧ assign_move this this m = Ok m.
Proof.
  intros Hne Hthis Hp Hown Hlive.
  unfold assign_move. rewrite Hthis, Hp, decide_False, decide_True by done.
  rewrite (reset_live _ _ Hlive). simpl.
  eexists. split; [done|]. simpl.
  assert (Hframe : ∀ l, cb_ self ≠ Some l →
            match cb_ self with Some l0 => delete l0 (blocks m) | None => blocks m end !! l
            = blocks m !! l).
  { intros l Hl. destruct (cb_ self) as [l0|]; [|done].
    rewrite lookup_delete_ne; [done|congruence]. }
  split_and!; try done.
  - by rewrite lookup_insert_eq.
  - by rewrite lookup_insert_ne, lookup_insert_eq.
  - unfold get. destruct (cb_ rhs) as [l|] eqn:E; [|done].
    rewrite Hframe; [done|]. destruct Hown as [Hown|Hown]; congruence.
  - destruct (cb_ self) as [l0|]; [|done]. rewrite dom_delete_L.
    intros l Hl. apply elem_of_difference in Hl as [Hl _]. exact Hl.
  - intros l ->. apply lookup_delete_eq.
  - intros a Ha1 Ha2. by rewrite !lookup_insert_ne.
Qed.

(** X8. On a container that holds an object, [operator bool] is true and
    [operator->], [operator*], [value] and [value_or] all return that
    object; [get_as] returns it when the cast succeeds and a null pointer
    otherwise. On an empty container [value_or] returns the default,
    [get_as] a null pointer, [is] false and [type] is [typeid(void)]: these
    never fail. *)
Theorem observers_of_full_and_empty_containers
    (p : polymorphic_value) h (o d : Obj) (U : type_info) :
  get p h = Ok (Some o) →
  (operator_bool p = true
   ∧ operator_arrow p h = Ok (Some o)
   ∧ operator_star p h = Ok o
   ∧ value p h = Ok o
   ∧ value_or p d h = Ok o
   ∧ get_as typeid_of derived_from U p h
     = Ok (if derived_from (typeid_of o) U then Some o else None)
   ∧ is_ typeid_of derived_from U p h = Ok (derived_from (typeid_of o) U))
  ∧ (operator_bool polymorphic_value_null = false
     ∧ value_or polymorphic_value_null d h = Ok d
     ∧ get_as typeid_of derived_from U polymorphic_value_null h = Ok None
     ∧ is_ typeid_of derived_from U polymorphic_value_null h = Ok false
     ∧ polymorphic_value_type typeid_of polymorphic_value_null h = Ok typeid_void).
Proof.
  intros Hget. split; [|done].
  unfold operator_arrow, operator_star, value, value_or, is_, get_as.
  rewrite !Hget. simpl. split_and!; try done.
  - unfold operator_bool. unfold get in Hget.
    destruct (cb_ p); [by apply bool_decide_eq_true_2|done].
  - by destruct (derived_from (typeid_of o) U).
Qed.

(** X10. Converting a container by move, in the constructor and in the
    assignment, wraps the block it owned in a delegating block without
    copying the object: the result holds the same object and reports the
    same type, the source is left empty, and the assignment frees the block
    the target owned. *)
Theorem converting_move_keeps_the_object
    (p self : polymorphic_value) h (o : Obj) :
  get p h = Ok (Some o) →
  (∀ l, cb_ self = Some l → is_Some (h !! l)) →
  cb_ self ≠ cb_ p →
  (∃ r h', polymorphic_value_convert_move p h = Ok (r, polymorphic_value_null, h')
     ∧ get r h' = Ok (Some o)
     ∧ polymorphic_value_type typeid_of r h' = polymorphic_value_type typeid_of p h
     ∧ (∀ l, cb_ r = Some l → h !! l = None)
     ∧ (∀ l, is_Some (h !! l) → cb_ p ≠ Some l → h' !! l = h !! l))
  ∧ (∃ r h', assign_convert_move self p h = Ok (r, polymorphic_value_null, h')
       ∧ get r h' = Ok (Some o)
       ∧ polymorphic_value_type typeid_of r h' = polymorphic_value_type typeid_of p h
       ∧ (∀ l, cb_ self = Some l → h' !! l = None)
       ∧ (∀ l, is_Some (h !! l) → cb_ p ≠ Some l → cb_ self ≠ Some l →
               h' !! l = h !! l)).
Proof.
  intros Hget Hlive Hown.
  unfold get in Hget. destruct (cb_ p) as [l1|] eqn:Hp; [|done].
  destruct (h !! l1) as [cb|] eqn:Hl1; [|done].
  set (l := fresh (dom h)).
  assert (Hl : h !! l = None) by apply fresh_is_free.
  assert (Hne : l ≠ l1) by (apply fresh_ne_allocated; eauto).
  split.
  - unfold polymorphic_value_convert_move. rewrite Hp, Hl1. simpl.
    eexists _, _. split; [done|].
    unfold get, polymorphic_value_type. simpl. rewrite Hp, Hl1.
    rewrite lookup_delete_ne, lookup_insert_eq by done. simpl.
    split_and!; try done.
    + by intros l0 [= <-].
    + intros l0 Hl0 Hl0p. rewrite lookup_delete_ne by congruence.
      by apply insert_fresh_keeps.
  - unfold assign_convert_move. rewrite Hp, Hl1. simpl.
    assert (Hself : ∀ l0, cb_ self = Some l0 → l0 ≠ l1 ∧ l0 ≠ l).
    { intros l0 Hl0. split; [congruence|].
      intros ->. apply Hlive in Hl0 as [? Hl0]. congruence. }
    rewrite reset_live.
    2:{ intros l0 Hl0. destruct (Hself l0 Hl0) as [H1 H2].
        rewrite lookup_delete_ne, lookup_insert_ne by done. by apply Hlive. }
    simpl. eexists _, _. split; [done|].
    unfold get, polymorphic_value_type. simpl. rewrite Hp, Hl1.
    destruct (cb_ self) as [l0|] eqn:E.
    + destruct (Hself l0 eq_refl) as [H1 H2].
      rewrite !lookup_delete_ne, lookup_insert_eq by done. simpl.
      split_and!; try done.
      * intros l2 [= <-]. apply lookup_delete_eq.
      * intros l2 Hl2 H3 H4. rewrite !lookup_delete_ne by congruence.
        by apply insert_fresh_keeps.
    + rewrite lookup_delete_ne, lookup_insert_eq by done. simpl.
      split_and!; try done.
      intros l2 Hl2 H3 H4. rewrite lookup_delete_ne by congruence.
      by apply insert_fresh_keeps.
Qed.

(** X11. Converting a container by copy, in the constructor and in the
    assignment, wraps a clone of its block in a delegating block: the result
    holds what the clone holds and reports its type, and the source keeps
    its block. *)
Theorem converting_copy_wraps_a_clone
    (p self : polymorphic_value) h (l1 : loc) cb cb' :
  cb_ p = Some l1 →
  h !! l1 = Some cb →
  clone copy_construct cb = Ok cb' →
  (∀ l, cb_ self = Some l → is_Some (h !! l)) →
  cb_ self ≠ cb_ p →
  (∃ r h', polymorphic_value_convert_copy copy_construct p h = Ok (r, h')
     ∧ get r h' = ptr cb'
     ∧ polymorphic_value_type typeid_of r h' = Ok (type typeid_of cb')
     ∧ cb_ r ≠ cb_ p
     ∧ ∀ l, is_Some (h !! l) → h' !! l = h !! l)
  ∧ (∃ r h', assign_convert_copy copy_construct self p h = Ok (r, h')
       ∧ get r h' = ptr cb'
       ∧ polymorphic_value_type typeid_of r h' = Ok (type typeid_of cb')
       ∧ h' !! l1 = Some cb
       ∧ (∀ l, cb_ self = Some l → h' !! l = None)).
Proof.
  intros Hp Hl1 Hclone Hlive Hown. split.
  - unfold polymorphic_value_convert_copy, polymorphic_value_copy.
    rewrite Hp, Hl1, Hclone. simpl.
    set (l := fresh (dom h)). set (h1 := <[l:=cb']> h).
    assert (Hh1 : h1 !! l = Some cb') by apply lookup_insert_eq.
    rewrite Hh1. set (l2 := fresh (dom h1)).
    assert (Hl2 : l2 ≠ l) by (apply fresh_ne_allocated; eauto).
    assert (Hl21 : l2 ≠ l1).
    { apply fresh_ne_allocated. unfold h1, l. rewrite insert_fresh_keeps; eauto. }
    eexists _, _. split; [done|].
    unfold get, polymorphic_value_type. simpl.
    rewrite lookup_delete_ne, lookup_insert_eq by done. simpl.
    split_and!; try done.
    + intros [= E]. by apply Hl21.
    + intros l0 Hl0.
      assert (l ≠ l0) by (by apply fresh_ne_allocated).
      assert (l2 ≠ l0).
      { apply fresh_ne_allocated. unfold h1, l. by rewrite insert_fresh_keeps. }
      rewrite lookup_delete_ne, lookup_insert_ne by done.
      by apply lookup_insert_ne.
  - unfold assign_convert_copy. rewrite Hp, Hl1, Hclone. simpl.
    set (l := fresh (dom h)).
    assert (Hne : l ≠ l1) by (apply fresh_ne_allocated; eauto).
    assert (Hself : ∀ l0, cb_ self = Some l0 → l0 ≠ l1 ∧ l0 ≠ l).
    { intros l0 Hl0. split; [congruence|].
      intros ->. apply Hlive in Hl0 as [? Hl0].
      pose proof (fresh_is_free h) as Hf. fold l in Hf. congruence. }
    rewrite reset_live.
    2:{ intros l0 Hl0. destruct (Hself l0 Hl0) as [H1 H2].
        rewrite lookup_insert_ne by done. by apply Hlive. }
    simpl. eexists _, _. split; [done|].
    unfold get, polymorphic_value_type. simpl.
    destruct (cb_ self) as [l0|] eqn:E.
    + destruct (Hself l0 eq_refl) as [H1 H2].
      rewrite !lookup_delete_ne, lookup_insert_eq, lookup_insert_ne by done.
      simpl. split_and!; try done. intros l2 [= <-]. apply lookup_delete_eq.
    + rewrite lookup_insert_eq, lookup_insert_ne by done. simpl.
      split_and!; done.
Qed.

(** X12. The converting constructors do not test whether their argument is
    empty: from an empty container they build a container that owns a
    delegating block without a delegate, for which [operator bool] is true
    and [type] is [typeid(void)], while [get] and the accessors dereference
    a null pointer. The converting assignments test it, and leave the target
    empty after freeing its block. *)
Theorem conversion_of_an_empty_container (self : polymorphic_value) h :
  (∀ l, cb_ self = Some l → is_Some (h !! l)) →
  (∃ r h', polymorphic_value_convert_copy copy_construct polymorphic_value_null h
           = Ok (r, h')
     ∧ polymorphic_value_convert_move polymorphic_value_null h
       = Ok (r, polymorphic_value_null, h')
     ∧ operator_bool r = true
     ∧ polymorphic_value_type typeid_of r h' = Ok typeid_void
     ∧ get r h' = Undefined
     ∧ operator_arrow r h' = Undefined
     ∧ operator_star r h' = Undefined
     ∧ polymorphic_value_copy copy_construct r h' = Undefined)
  ∧ (∃ h', assign_convert_copy copy_construct self polymorphic_value_null h
           = Ok (polymorphic_value_null, h')
       ∧ assign_convert_move self polymorphic_value_null h
         = Ok (polymorphic_value_null, polymorphic_value_null, h')
       ∧ (∀ l, cb_ self = Some l → h' !! l = None)
       ∧ (∀ l, cb_ self ≠ Some l → h' !! l = h !! l)).
Proof.
  intros Hlive. split.
  - unfold polymorphic_value_convert_copy, polymorphic_value_convert_move,
      polymorphic_value_copy. simpl.
    eexists _, _. split; [done|]. split; [done|].
    unfold polymorphic_value_type, get, operator_arrow, operator_star,
      polymorphic_value_copy, get. simpl.
    rewrite lookup_insert_eq. simpl. done.
  - unfold assign_convert_copy, assign_convert_move. simpl.
    rewrite (reset_live _ _ Hlive). simpl.
    eexists. split; [done|]. split; [done|]. split.
    + intros l ->. apply lookup_delete_eq.
    + intros l Hl. destruct (cb_ self) as [l0|]; [|done].
      apply lookup_delete_ne. congruence.
Qed.
(** X21. Assigning a pointer throws exactly when it points to an object
    whose class is not the declared one. Assigning a null pointer does what
    assigning [nullptr] does. Otherwise the target takes the object itself,
    not a copy, in a new block, reports the object's class, and the block it
    owned is freed; no other container is touched. *)
Theorem assignment_of_a_pointer
    (this : addr) (U : type_info) (rhs : option Obj) (m : Memory Obj)
    (self : polymorphic_value) :
  objects m !! this = Some self →
  (∀ l, cb_ self = Some l → is_Some (blocks m !! l)) →
  (assign_pointer typeid_of this U rhs m = Throw bad_polymorphic_value_construction
   ↔ ∃ o, rhs = Some o ∧ typeid_of o ≠ U)
  ∧ assign_pointer typeid_of this U None m = assign_nullptr this m
  ∧ (∀ o, rhs = Some o → typeid_of o = U →
     ∃ m' p',
       assign_pointer typeid_of this U rhs m = Ok m'
       ∧ objects m' !! this = Some p'
       ∧ get p' (blocks m') = Ok (Some o)
       ∧ polymorphic_value_type typeid_of p' (blocks m') = Ok (typeid_of o)
       ∧ cb_ p' ≠ cb_ self
       ∧ (∀ l, cb_ self = Some l → blocks m' !! l = None)
       ∧ (∀ a, a ≠ this → objects m' !! a = objects m !! a)).
Proof.
  intros Hthis Hlive.
  assert (Hnew : ∀ o, typeid_of o = U →
    assign_pointer typeid_of this U (Some o) m
    = Ok {| objects := <[this := {| cb_ := Some (fresh (dom (blocks m))) |}]> (objects m);
            blocks := match cb_ self with
                      | Some l0 =>
                          delete l0 (<[fresh (dom (blocks m)) :=
                                        pointer_control_block U (Some o)
                                          default_copy default_delete]> (blocks m))
                      | None => <[fresh (dom (blocks m)) :=
                                    pointer_control_block U (Some o)
                                      default_copy default_delete]> (blocks m)
                      end |}).
  { intros o Ho. unfold assign_pointer, polymorphic_value_from_pointer.
    rewrite Hthis. simpl. rewrite (bool_decide_eq_true_2 _ Ho). simpl.
    rewrite reset_live; [done|].
    intros l0 Hl0. rewrite lookup_insert_ne; [by apply Hlive|].
    apply fresh_ne_allocated. by apply Hlive. }
  split_and!.
  - split.
    + destruct rhs as [o|].
      * intros Hthrow. exists o. split; [done|]. intros Ho.
        rewrite (Hnew o Ho) in Hthrow. discriminate.
      * unfold assign_pointer, polymorphic_value_from_pointer.
        rewrite Hthis. simpl. rewrite reset_live by done. discriminate.
    + intros (o & -> & Hne). unfold assign_pointer, polymorphic_value_from_pointer.
      rewrite Hthis. simpl. by rewrite (bool_decide_eq_false_2 _ Hne).
  - unfold assign_pointer, assign_nullptr, polymorphic_value_from_pointer.
    by rewrite Hthis.
  - intros o -> Ho. rewrite (Hnew o Ho).
    set (l := fresh (dom (blocks m))).
    assert (Hold : ∀ l0, cb_ self = Some l0 → l ≠ l0).
    { intros l0 Hl0. apply fresh_ne_allocated. by apply Hlive. }
    assert (Hcell : match cb_ self with
                    | Some l0 =>
                        delete l0 (<[l := pointer_control_block U (Some o)
                                            default_copy default_delete]> (blocks m))
                    | None => <[l := pointer_control_block U (Some o)
                                       default_copy default_delete]> (blocks m)
                    end !! l
                    = Some (pointer_control_block U (Some o) default_copy default_delete)).
    { destruct (cb_ self) as [l0|] eqn:Hself.
      - rewrite lookup_delete_ne, lookup_insert_eq; [done|].
        intros ->. by apply (Hold l).
      - by rewrite lookup_insert_eq. }
    eexists _, _. split; [done|]. simpl. split_and!.
    + by rewrite lookup_insert_eq.
    + unfold get. simpl. by rewrite Hcell.
    + unfold polymorphic_value_type. simpl. by rewrite Hcell.
    + simpl. intros E. by apply (Hold l).
    + intros l0 ->. apply lookup_delete_eq.
    + intros a Ha. by rewrite lookup_insert_ne.
Qed.

End polymorphic_value_more_properties.

(** ** Chains, tuples and combinators: how they compose *)

Section chain_more_properties.
Context {Args : Type}.
Implicit Types h : gmap loc (control_block (ExecutionBlock.t Args)).
Implicit Types blocks : list polymorphic_value.
Local Arguments addresses : simpl never.

Lemma polymorphic_value_copy_inv (p p' : polymorphic_value) h h' :
  polymorphic_value_copy ExecutionBlock.copy_construct p h = Ok (p', h') →
  (cb_ p' = None ∧ h' = h)
  ∨ ∃ cb, cb_ p' = Some (fresh (dom h)) ∧ h' = <[fresh (dom h) := cb]> h.
Proof.
  unfold polymorphic_value_copy. destruct (cb_ p) as [l|].
  - destruct (h !! l) as [cb|]; [|done].
    destruct (clone ExecutionBlock.copy_construct cb) as [cb'| | |]; simpl; try done.
    intros [= <- <-]. right. eauto.
  - intros [= <- <-]. by left.
Qed.

(** The copies of a vector of containers own blocks that were free, and no
    other cell is written. *)
Lemma copy_blocks_exact blocks : ∀ h copies h',
  ExecutionChain.copy_blocks blocks h = Ok (copies, h') →
  (∀ l, l ∈ addresses copies → h !! l = None)
  ∧ (∀ l, l ∉ addresses copies → h' !! l = h !! l).
Proof.
  induction blocks as [|p blocks IH]; intros h copies h' Hc; simpl in Hc.
  { injection Hc as <- <-. split; [|done]. intros l Hl. by apply elem_of_nil in Hl. }
  destruct (polymorphic_value_copy ExecutionBlock.copy_construct p h)
    as [[p' h1]| | |] eqn:Hp; simpl in Hc; try done.
  destruct (ExecutionChain.copy_blocks blocks h1) as [[rest h2]| | |] eqn:Hr;
    simpl in Hc; try done.
  injection Hc as <- <-.
  destruct (IH _ _ _ Hr) as [Hfresh Hframe].
  apply polymorphic_value_copy_inv in Hp as [[Hp' ->]|(cb & Hp' & ->)].
  - rewrite addresses_cons, Hp'. done.
  - rewrite addresses_cons, Hp'. split.
    + intros l [->|Hl]%elem_of_cons.
      * apply not_elem_of_dom, is_fresh.
      * apply Hfresh in Hl. apply lookup_insert_None in Hl. tauto.
    + intros l [Hne Hl]%not_elem_of_cons.
      rewrite Hframe by done. by apply lookup_insert_ne.
Qed.

(** The blocks a sequence of appends adds were free, and no other cell is
    written. *)
Lemma append_all_exact (actions : list (ExecutionBlock.t Args)) :
  ∀ (c c' : ExecutionChain.t) h h',
  append_all actions c h = Ok (c', h') →
  ∃ new, ExecutionChain.m_blocks c' = ExecutionChain.m_blocks c ++ new
    ∧ (∀ l, l ∈ addresses new → h !! l = None)
    ∧ (∀ l, l ∉ addresses new → h' !! l = h !! l).
Proof.
  induction actions as [|b actions IH]; intros c c' h h' Ha; simpl in Ha.
  { injection Ha as <- <-. exists []. rewrite app_nil_r. split_and!; try done.
    intros l Hl. by apply elem_of_nil in Hl. }
  rewrite append_Ok in Ha. simpl in Ha.
  destruct (IH _ _ _ _ Ha) as (new & Hnew & Hfresh & Hframe). simpl in Hnew.
  exists ({| cb_ := Some (fresh (dom h)) |} :: new).
  rewrite addresses_cons. simpl. split_and!.
  - by rewrite Hnew, <- app_assoc.
  - intros l [->|Hl]%elem_of_cons.
    + apply not_elem_of_dom, is_fresh.
    + apply Hfresh in Hl. apply lookup_insert_None in Hl. tauto.
  - intros l [Hne Hl]%not_elem_of_cons.
    rewrite Hframe by done. by apply lookup_insert_ne.
Qed.

(** Destroying the blocks that an operation added to a heap gives the heap
    back. *)
Lemma destroy_added_blocks blocks h0 h :
  NoDup (addresses blocks) →
  (∀ l, l ∈ addresses blocks → is_Some (h !! l)) →
  (∀ l, l ∈ addresses blocks → h0 !! l = None) →
  (∀ l, l ∉ addresses blocks → h !! l = h0 !! l) →
  ExecutionChain.destroy_blocks blocks h = Ok h0.
Proof.
  intros Hnd Hlive Hfresh Hframe.
  destruct (destroy_blocks_spec blocks h Hnd Hlive) as (h' & Hd & Hfreed & Hkeep).
  rewrite Hd. f_equal. apply map_eq. intros l.
  destruct (decide (l ∈ addresses blocks)) as [Hin|Hout].
  - by rewrite Hfreed, Hfresh.
  - by rewrite Hkeep, Hframe.
Qed.
Lemma addresses_length blocks h :
  forallb (block_ok h) blocks = true → length (addresses blocks) = length blocks.
Proof.
  induction blocks as [|p blocks IH]; [done|].
  intros [Hp Hrest]%andb_true_iff.
  apply block_ok_spec in Hp as (l & U & b & Hl & _).
  rewrite (addresses_cons p blocks). rewrite Hl. simpl. by rewrite IH.
Qed.

(** X13. [lhs | rhs] on two well formed chains returns a new chain that
    owns copies, in blocks that were free, of the blocks of [lhs] followed
    by those of [rhs]; no cell that was allocated is written, so both
    operands are as they were, and invoking the result calls the blocks of
    [lhs] and then those of [rhs]. *)
Theorem pipe_of_chains_concatenates_copies
    (lhs rhs : ExecutionChain.t) h (args : Args) :
  chain_ok h lhs = true →
  chain_ok h rhs = true →
  ∃ c h' bl br,
    ExecutionChain.pipe lhs rhs h = Ok (c, h')
    ∧ contents h lhs = Some <$> bl
    ∧ contents h rhs = Some <$> br
    ∧ contents h' c = Some <$> (bl ++ br)
    ∧ chain_ok h' c = true
    ∧ (∀ l, l ∈ addresses (ExecutionChain.m_blocks c) → h !! l = None)
    ∧ (∀ l, l ∉ addresses (ExecutionChain.m_blocks c) → h' !! l = h !! l)
    ∧ ∃ h'', ExecutionChain.Execute c h' args
             = Ok (h'', (run_in_order (bl ++ br) args).2).
Proof.
  intros [Hokl Hndl]%chain_ok_spec [Hokr Hndr]%chain_ok_spec.
  destruct (copy_blocks_spec _ h Hokl)
    as (copies1 & h1 & Hc1 & Hkeep1 & Hfresh1 & Hnd1 & Hok1 & Hheld1).
  destruct (copy_blocks_exact _ _ _ _ Hc1) as [_ Hframe1].
  assert (Hokr1 : forallb (block_ok h1) (ExecutionChain.m_blocks rhs) = true).
  { apply forallb_block_ok. intros q Hq.
    rewrite forallb_block_ok in Hokr. rewrite <- (Hokr q Hq).
    apply block_ok_agree. intros l Hl. apply Hkeep1.
    eapply block_ok_allocated; [apply forallb_block_ok; exact Hokr|].
    apply elem_of_addresses. eauto. }
  destruct (copy_blocks_spec _ h1 Hokr1)
    as (copies2 & h2 & Hc2 & Hkeep2 & Hfresh2 & Hnd2 & Hok2 & Hheld2).
  destruct (copy_blocks_exact _ _ _ _ Hc2) as [_ Hframe2].
  destruct (block_ok_held _ h Hokl) as [bl Hbl].
  destruct (block_ok_held _ h Hokr) as [br Hbr].
  assert (Hlive1 : ∀ l, l ∈ addresses copies1 → is_Some (h1 !! l)).
  { intros l. by apply block_ok_allocated. }
  assert (Hok12 : forallb (block_ok h2) (copies1 ++ copies2) = true).
  { rewrite forallb_app, Hok2, andb_true_r.
    apply forallb_block_ok. intros q Hq.
    rewrite forallb_block_ok in Hok1. rewrite <- (Hok1 q Hq).
    apply block_ok_agree. intros l Hl. apply Hkeep2, Hlive1, elem_of_addresses. eauto. }
  assert (Hnd12 : NoDup (addresses (copies1 ++ copies2))).
  { rewrite addresses_app. apply NoDup_app. split_and!; [done | | done].
    intros l Hl Hin. apply Hfresh2 in Hin. apply Hlive1 in Hl as [cb Hcb]. congruence. }
  assert (Hcont : held h2 <$> (copies1 ++ copies2) = Some <$> (bl ++ br)).
  { rewrite !fmap_app. f_equal.
    - rewrite <- Hbl. unfold contents. rewrite <- Hheld1.
      apply held_agree_list. intros l Hl. by apply Hkeep2, Hlive1.
    - rewrite <- Hbr. unfold contents. rewrite Hheld2.
      apply held_agree_list. intros l Hl. apply Hkeep1.
      by eapply block_ok_allocated. }
  destruct (Execute_blocks_run _ h2 args (bl ++ br) Hok12 Hnd12 Hcont) as (h3 & He & _).
  exists (ExecutionChain.Build (copies1 ++ copies2)), h2, bl, br.
  unfold ExecutionChain.pipe, ExecutionChain.copy, ExecutionChain.append_chain.
  rewrite Hc1. simpl. rewrite Hc2. simpl.
  split_and!; try done.
  - by apply chain_ok_spec.
  - intros l Hl. rewrite addresses_app in Hl. apply elem_of_app in Hl as [Hl|Hl].
    + by apply Hfresh1.
    + apply Hfresh2 in Hl. destruct (h !! l) as [cb|] eqn:E; [|done].
      rewrite Hkeep1 in Hl; [congruence|]. rewrite E. eauto.
  - intros l Hl. rewrite addresses_app in Hl. apply not_elem_of_app in Hl as [Hl1 Hl2].
    by rewrite Hframe2, Hframe1.
  - exists h3. exact He.
Qed.

Lemma Execute_block_of_action (a : TupleAction.t Args) (args : Args) :
  ExecutionBlock.Execute (block_of_action a) args
  = (block_of_action (TupleAction.invoke_discard a args).1,
     (TupleAction.invoke_discard a args).2).
Proof.
  unfold ExecutionBlock.Execute, TupleAction.invoke_discard, block_of_action. simpl.
  by destruct (invoke (TupleAction.action a) args) as [[a' args'] r].
Qed.

Lemma run_in_order_blocks_of_actions (l : list (TupleAction.t Args)) : ∀ args,
  run_in_order (block_of_action <$> l) args
  = (block_of_action <$> (BlockTuple.invoke_each l args).1,
     (BlockTuple.invoke_each l args).2).
Proof.
  induction l as [|a l IH]; intros args; [done|].
  rewrite fmap_cons. cbn [run_in_order BlockTuple.invoke_each].
  rewrite Execute_block_of_action.
  destruct (TupleAction.invoke_discard a args) as [a' args1]. cbn [fst snd].
  rewrite IH. by destruct (BlockTuple.invoke_each l args1).
Qed.

(** X14. A chain constructed from a tuple holds the tuple as one block, and
    invoking it gives the arguments that invoking the tuple gives; so does
    the chain, of one block per element, to which the elements of the tuple
    were appended one by one. *)
Theorem tuple_stored_as_one_block (s : BlockTuple.t Args)
    (h0 h0' : gmap loc (control_block (ExecutionBlock.t Args))) (args : Args) :
  ∃ c1 h1 h1' c2 h2 h2',
    ExecutionChain.construct s h0 = Ok (c1, h1)
    ∧ length (ExecutionChain.m_blocks c1) = 1
    ∧ ExecutionChain.Execute c1 h1 args = Ok (h1', (BlockTuple.Execute s args).2)
    ∧ append_all (block_of_action <$> BlockTuple.m_actions s) ExecutionChain.empty h0'
      = Ok (c2, h2)
    ∧ length (ExecutionChain.m_blocks c2) = length (BlockTuple.m_actions s)
    ∧ ExecutionChain.Execute c2 h2 args = Ok (h2', (BlockTuple.Execute s args).2).
Proof.
  destruct (Execute_appended [ExecutionChain.create_block s] h0 args)
    as (c1 & h1 & h1' & Ha1 & Hlen1 & He1 & _).
  destruct (Execute_appended (block_of_action <$> BlockTuple.m_actions s) h0' args)
    as (c2 & h2 & h2' & Ha2 & Hlen2 & He2 & _).
  exists c1, h1, h1', c2, h2, h2'.
  cbn [append_all] in Ha1. rewrite append_Ok in Ha1. simpl in Ha1.
  injection Ha1 as <- <-.
  split_and!.
  - exact (append_Ok ExecutionChain.empty (ExecutionChain.create_block s) h0).
  - done.
  - etrans; [exact He1|]. do 2 f_equal. simpl.
    unfold ExecutionBlock.Execute. simpl.
    by destruct (BlockTuple.Execute s args).
  - done.
  - by rewrite Hlen2, length_fmap.
  - rewrite He2, run_in_order_blocks_of_actions, BlockTuple_Execute_args. done.
Qed.

Lemma invoke_discard_logged_action (n : nat) (a : TupleAction.t Args)
    (args : Args) (log : list nat) :
  TupleAction.invoke_discard (logged_action (n, a)) (args, log)
  = (logged_action (n, (TupleAction.invoke_discard a args).1),
     ((TupleAction.invoke_discard a args).2, log ++ [n])).
Proof.
  unfold TupleAction.invoke_discard, logged_action. simpl.
  by destruct (invoke (TupleAction.action a) args) as [[a' args1] r].
Qed.

Lemma invoke_each_logged (tagged : list (nat * TupleAction.t Args)) :
  ∀ (args : Args) (log : list nat),
  (BlockTuple.invoke_each (logged_action <$> tagged) (args, log)).2
  = ((BlockTuple.invoke_each tagged.*2 args).2, log ++ tagged.*1).
Proof.
  induction tagged as [|[n a] tagged IH]; intros args log.
  { simpl. by rewrite app_nil_r. }
  rewrite !fmap_cons. cbn [BlockTuple.invoke_each fst snd].
  rewrite invoke_discard_logged_action.
  destruct (TupleAction.invoke_discard a args) as [a' args1]. cbn [fst snd].
  specialize (IH args1 (log ++ [n])).
  destruct (BlockTuple.invoke_each (logged_action <$> tagged) (args1, log ++ [n]))
    as [l1 s1].
  destruct (BlockTuple.invoke_each tagged.*2 args1) as [l2 args2].
  cbn [fst snd] in *. rewrite IH. by rewrite <- app_assoc.
Qed.

Lemma invoke_each_length (l : list (TupleAction.t Args)) : ∀ args,
  length (BlockTuple.invoke_each l args).1 = length l.
Proof.
  induction l as [|a l IH]; intros args; [done|]. simpl.
  destruct (TupleAction.invoke_discard a args) as [a' args1].
  specialize (IH args1). destruct (BlockTuple.invoke_each l args1). simpl in *.
  by rewrite IH.
Qed.

(** X15. Invoking a tuple calls each of its elements exactly once, from the
    first to the last, whatever they return: with logging elements, given
    any tags, the log grows by the list of the tags in the order of the
    elements, the arguments are those the plain elements give, and the tuple
    keeps its number of elements. *)
Theorem BlockTuple_Execute_calls_each_element_once_in_order
    (tagged : list (nat * TupleAction.t Args)) (args : Args) (log : list nat) :
  (BlockTuple.Execute (BlockTuple.Build (logged_action <$> tagged)) (args, log)).2
  = ((BlockTuple.Execute (BlockTuple.Build tagged.*2) args).2, log ++ tagged.*1)
  ∧ length (BlockTuple.m_actions
              (BlockTuple.Execute (BlockTuple.Build tagged.*2) args).1)
    = length tagged.
Proof.
  split.
  - rewrite !BlockTuple_Execute_args. simpl. apply invoke_each_logged.
  - unfold BlockTuple.Execute. simpl.
    pose proof (invoke_each_length tagged.*2 args) as Hlen.
    destruct (BlockTuple.invoke_each tagged.*2 args). simpl in *.
    by rewrite Hlen, length_fmap.
Qed.

(** X16. A branch whose else-action does nothing behaves as the branch
    without else: on every input the two leave the same arguments, the same
    predicate and then-action, and return the same value. *)
Theorem else_of_nothing_is_no_else {If_t Then_t}
    `{!Predicate Args If_t, !Callable Args Then_t}
    (P : If_t) (T : Then_t) (args : Args) :
  let r1 := IfThen.Execute (If.Then (If.Build P) T) args in
  let r2 := IfThenElse.Execute
              (IfThen.Else (If.Then (If.Build P) T) (@do_nothing Args)) args in
  r2.1.2 = r1.1.2
  ∧ r2.2 = r1.2
  ∧ IfThenElse.m_predicate r2.1.1 = IfThen.m_predicate r1.1.1
  ∧ IfThenElse.m_then r2.1.1 = IfThen.m_then r1.1.1
  ∧ IfThenElse.m_elseThen r2.1.1 = do_nothing.
Proof.
  intros r1 r2. subst r1 r2.
  unfold IfThen.Execute, IfThenElse.Execute, IfThen.Else, If.Then.
  cbn [IfThen.m_predicate IfThen.m_then IfThenElse.m_predicate
       IfThenElse.m_then IfThenElse.m_elseThen If.m_logic].
  destruct (test P args) as [[P' args1] b].
  rewrite !Call_continuation. destruct b; simpl; done.
Qed.

(** X17. An action that does not return [bool] always continues: as the
    primary of Try/Fallback it makes the result [true] and the fallback is
    never evaluated; as the then-action, or as both actions of a branch with
    else, it makes the branch return [true]. *)
Theorem action_without_bool_always_continues {If_t Try_t Fallback_t Else_t}
    `{!Predicate Args If_t, !Callable Args Try_t,
      !Callable Args Fallback_t, !Callable Args Else_t}
    (P : If_t) (primary : Try_t) (fallback : Fallback_t) (E : Else_t)
    (args : Args) :
  returns_bool Try_t = false →
  TryFallback.Execute (Try.Fallback (Try.Build primary) fallback) args
  = (TryFallback.Build (invoke primary args).1.1 fallback,
     (invoke primary args).1.2, true)
  ∧ (TryFallback.Execute
       (Try.Fallback (Try.Build (Log 0 primary)) (Log 1 fallback)) (args, [])).1.2.2
    = [0]
  ∧ (IfThen.Execute (If.Then (If.Build P) primary) args).2 = true
  ∧ (returns_bool Else_t = false →
     (IfThenElse.Execute (IfThen.Else (If.Then (If.Build P) primary) E) args).2
     = true).
Proof.
  intros Hvoid.
  assert (Hcall : ∀ a : Try_t, ∀ x, (detail.Call a x).2 = true).
  { intros a x. rewrite Call_continuation. simpl.
    generalize (invoke a x).2. unfold continuation.
    by rewrite Hvoid. }
  split_and!.
  - unfold TryFallback.Execute, Try.Fallback.
    cbn [TryFallback.m_try TryFallback.m_fallback Try.m_try].
    pose proof (Hcall primary args) as Hc. rewrite Call_continuation in Hc |- *.
    simpl in Hc. by rewrite Hc.
  - unfold TryFallback.Execute, Try.Fallback.
    cbn [TryFallback.m_try TryFallback.m_fallback Try.m_try].
    rewrite !Call_Logged. pose proof (Hcall primary args) as Hc.
    destruct (detail.Call primary args) as [[p' a'] r]. simpl in *. by rewrite Hc.
  - unfold IfThen.Execute, If.Then. cbn [IfThen.m_predicate IfThen.m_then If.m_logic].
    destruct (test P args) as [[P' args1] b]. destruct b; simpl; [|done].
    pose proof (Hcall primary args1) as Hc.
    by destruct (detail.Call primary args1) as [[p' a'] r].
  - intros HvoidE.
    unfold IfThenElse.Execute, IfThen.Else, If.Then.
    cbn [IfThenElse.m_predicate IfThenElse.m_then IfThenElse.m_elseThen
         IfThen.m_predicate IfThen.m_then If.m_logic].
    destruct (test P args) as [[P' args1] b]. destruct b.
    + pose proof (Hcall primary args1) as Hc.
      by destruct (detail.Call primary args1) as [[p' a'] r].
    + rewrite Call_continuation. simpl.
      generalize (invoke E args1).2. unfold continuation. by rewrite HvoidE.
Qed.

(** X18. With a branch without else as the primary of Try/Fallback, the
    fallback is evaluated exactly when the predicate holds and the
    then-action returns [false]: the log of logging actions is the
    predicate alone when it fails, the predicate and the then-action when
    that continues, and all three otherwise; the result is [true] in the
    first two cases and the fallback's continuation result in the third. *)
Theorem branch_as_primary_of_try {If_t Then_t Fallback_t}
    `{!Predicate Args If_t, !Callable Args Then_t, !Callable Args Fallback_t}
    (P : If_t) (T : Then_t) (F : Fallback_t) (args : Args) :
  let p := test P args in
  let t := invoke T p.1.2 in
  let f := invoke F t.1.2 in
  let r := TryFallback.Execute
             (Try.Fallback (Try.Build (If.Then (If.Build (Log 0 P)) (Log 1 T)))
                (Log 2 F)) (args, []) in
  r.1.2 = (if p.2 then
             if continuation t.2 then (t.1.2, [0; 1]) else (f.1.2, [0; 1; 2])
           else (p.1.2, [0]))
  ∧ r.2 = (if p.2 then
             if continuation t.2 then true else continuation f.2
           else true).
Proof.
  intros p t f r. subst r f t p.
  unfold TryFallback.Execute, Try.Fallback.
  cbn [TryFallback.m_try TryFallback.m_fallback Try.m_try].
  rewrite (Call_continuation (If.Then _ _)).
  cbn [invoke IfThen_Callable continuation returns_bool].
  unfold IfThen.Execute, If.Then.
  cbn [IfThen.m_predicate IfThen.m_then If.m_logic test Logged_Predicate tag logged].
  destruct (test P args) as [[P' args1] b].
  destruct b; cbn [negb fst snd]; [|done].
  rewrite !Call_Logged, !Call_continuation. cbn [fst snd].
  destruct (continuation (invoke T args1).2); cbn [fst snd]; [done|].
  simpl. by destruct (invoke F (invoke T args1).1.2) as [[F' args2] r].
Qed.

(** X19. What a sequence of appends allocates, clearing the chain frees:
    after the actions of a list are appended to an empty chain and the chain
    is cleared, by [clear] or by the assignment of an empty chain, the heap
    is the one before the appends, and invoking the cleared chain changes
    nothing. *)
Theorem appended_blocks_are_freed_by_clear
    (actions : list (ExecutionBlock.t Args)) h0 (args : Args) :
  ∃ c h,
    append_all actions ExecutionChain.empty h0 = Ok (c, h)
    ∧ ExecutionChain.clear c h = Ok (ExecutionChain.empty, h0)
    ∧ ExecutionChain.move_assign c ExecutionChain.empty h
      = Ok (ExecutionChain.empty, ExecutionChain.empty, h0)
    ∧ ExecutionChain.Execute ExecutionChain.empty h0 args = Ok (h0, args).
Proof.
  destruct (append_all_spec actions ExecutionChain.empty h0 eq_refl)
    as (c & h & Ha & [Hok Hnd]%chain_ok_spec & _ & _).
  destruct (append_all_exact _ _ _ _ _ Ha) as (new & Hnew & Hfresh & Hframe).
  simpl in Hnew. rewrite <- Hnew in Hfresh, Hframe.
  assert (Hd : ExecutionChain.destroy_blocks (ExecutionChain.m_blocks c) h = Ok h0).
  { apply destroy_added_blocks; try done. intros l. by apply block_ok_allocated. }
  exists c, h. unfold ExecutionChain.clear, ExecutionChain.move_assign.
  rewrite Hd. done.
Qed.

(** X20. Copying a well formed chain and clearing the copy gives back the
    heap as it was before the copy: the copy constructor allocates one block
    per block of the source and nothing else. *)
Theorem copy_then_clear_restores_the_heap (c : ExecutionChain.t) h :
  chain_ok h c = true →
  ∃ c2 h1,
    ExecutionChain.copy c h = Ok (c2, h1)
    ∧ length (ExecutionChain.m_blocks c2) = length (ExecutionChain.m_blocks c)
    ∧ size h1 = size h + length (ExecutionChain.m_blocks c)
    ∧ ExecutionChain.clear c2 h1 = Ok (ExecutionChain.empty, h).
Proof.
  intros [Hok Hnd]%chain_ok_spec.
  destruct (copy_blocks_spec _ h Hok)
    as (copies & h1 & Hc & Hkeep & Hfresh & Hnd2 & Hok2 & Hheld).
  destruct (copy_blocks_exact _ _ _ _ Hc) as [_ Hframe].
  exists (ExecutionChain.Build copies), h1.
  unfold ExecutionChain.copy, ExecutionChain.clear. rewrite Hc. simpl.
  assert (Hlen : length copies = length (ExecutionChain.m_blocks c)).
  { apply (f_equal length) in Hheld. by rewrite !length_fmap in Hheld. }
  rewrite (destroy_added_blocks copies h h1); try done.
  2:{ intros l. by apply block_ok_allocated. }
  split_and!; try done.
  assert (Hdom : dom h1 = dom h ∪ list_to_set (addresses copies)).
  { apply set_eq. intros l.
    rewrite elem_of_union, !elem_of_dom, elem_of_list_to_set.
    destruct (decide (l ∈ addresses copies)) as [Hl|Hl].
    - split; [by right|]. intros _. by eapply block_ok_allocated.
    - rewrite (Hframe l Hl). tauto. }
  rewrite <- (size_dom h1), <- (size_dom h), Hdom, size_union.
  2:{ intros l Hl1 Hl2. apply elem_of_dom in Hl1 as [cb Hcb].
      apply elem_of_list_to_set, Hfresh in Hl2. congruence. }
  rewrite size_list_to_set by done.
  by rewrite (addresses_length _ _ Hok2), Hlen.
Qed.
End chain_more_properties.

(** ** The further properties on the containers and chains of the examples *)

Lemma copies_of_checked_containers_keep_the_type_test :
  class_of (30%positive, 7%Z) = 30%positive
  ∧ ∃ p h1 p2 h2,
      polymorphic_value_from_pointer class_of 30%positive (Some (30%positive, 7%Z))
        default_copy default_delete (blocks test_objects) = Ok (p, h1)
      ∧ polymorphic_value_copy copy_as p h1 = Ok (p2, h2)
      ∧ polymorphic_value_type class_of p2 h2 = Ok 30%positive.
Proof.
  split; [reflexivity|].
  destruct (copies_of_checked_containers_keep_the_type class_of copy_as
              30%positive (30%positive, 7%Z) (blocks test_objects))
    as [(p & h1 & p2 & h2 & H1 & _ & H2 & _ & _ & H3 & _) _].
  - intros o'. reflexivity.
  - reflexivity.
  - exists p, h1, p2, h2. split_and!; assumption.
Defined.

Lemma custom_deleter_skips_the_type_check_test :
  class_of (31%positive, 9%Z) ≠ 30%positive
  ∧ polymorphic_value_from_pointer class_of 30%positive (Some (31%positive, 9%Z))
      default_copy default_delete (blocks test_objects)
    = Throw bad_polymorphic_value_construction
  ∧ ∃ p h1,
      polymorphic_value_from_pointer class_of 30%positive (Some (31%positive, 9%Z))
        default_copy custom_deleter (blocks test_objects) = Ok (p, h1)
      ∧ polymorphic_value_type class_of p h1 = Ok 31%positive.
Proof.
  split; [vm_compute; discriminate|].
  destruct (custom_deleter_skips_the_type_check class_of copy_as
              30%positive (31%positive, 9%Z) (blocks test_objects))
    as [Hthrow (p & h1 & p2 & h2 & H1 & H2 & _)].
  - intros o'. reflexivity.
  - vm_compute. discriminate.
  - split; [exact Hthrow|]. exists p, h1. split; [exact H1 | exact H2].
Defined.

Lemma assignment_of_a_value_never_throws_test :
  objects test_objects !! 1%positive = Some {| cb_ := Some 1%positive |}
  ∧ ∃ m' p',
      assign_value copy_as 1%positive 30%positive (31%positive, 5%Z) test_objects
      = Ok m'
      ∧ objects m' !! 1%positive = Some p'
      ∧ get p' (blocks m') = Ok (Some (30%positive, 5%Z))
      ∧ blocks m' !! 1%positive = None.
Proof.
  split; [vm_compute; reflexivity|].
  destruct (assignment_of_a_value_never_throws class_of copy_as 1%positive
              30%positive (31%positive, 5%Z) test_objects {| cb_ := Some 1%positive |})
    as (m' & p' & H1 & H2 & H3 & _ & H4 & _).
  - vm_compute; reflexivity.
  - intros l [= <-]. vm_compute. eauto.
  - exists m', p'. split_and!; [exact H1 | exact H2 | exact H3 | exact (H4 _ eq_refl)].
Defined.

Lemma copy_assignment_clones_test :
  objects test_objects !! 1%positive = Some {| cb_ := Some 1%positive |}
  ∧ objects test_objects !! 2%positive = Some {| cb_ := Some 2%positive |}
  ∧ ∃ m' l',
      assign_copy copy_as 1%positive 2%positive test_objects = Ok m'
      ∧ objects m' !! 1%positive = Some {| cb_ := Some l' |}
      ∧ l' ≠ 2%positive
      ∧ blocks m' !! 1%positive = None.
Proof.
  split; [vm_compute; reflexivity|]. split; [vm_compute; reflexivity|].
  destruct (copy_assignment_clones copy_as 1%positive 2%positive test_objects
              {| cb_ := Some 1%positive |} {| cb_ := Some 2%positive |} 2%positive
              (pointer_control_block 31%positive (Some (31%positive, 9%Z))
                 default_copy default_delete)
              (pointer_control_block 31%positive (Some (31%positive, 9%Z))
                 default_copy default_delete))
    as (m' & l' & H1 & H2 & H3 & _ & _ & _ & _ & H4 & _).
  - discriminate.
  - vm_compute; reflexivity.
  - vm_compute; reflexivity.
  - reflexivity.
  - vm_compute; reflexivity.
  - vm_compute; reflexivity.
  - discriminate.
  - intros l [= <-]. vm_compute. eauto.
  - exists m', l'. split_and!; [exact H1 | exact H2 | exact H3 | exact (H4 _ eq_refl)].
Defined.

Lemma swap_exchanges_and_undoes_itself_test :
  objects test_objects !! 1%positive = Some {| cb_ := Some 1%positive |}
  ∧ objects test_objects !! 3%positive = Some polymorphic_value_null
  ∧ ∃ m', swap 1%positive 3%positive test_objects = Ok m'
      ∧ objects m' !! 1%positive = Some polymorphic_value_null
      ∧ objects m' !! 3%positive = Some {| cb_ := Some 1%positive |}
      ∧ swap 1%positive 3%positive m' = Ok test_objects.
Proof.
  split; [vm_compute; reflexivity|]. split; [vm_compute; reflexivity|].
  destruct (swap_exchanges_and_undoes_itself 1%positive 3%positive test_objects
              {| cb_ := Some 1%positive |} polymorphic_value_null)
    as (m' & H1 & H2 & H3 & _ & _ & _ & H4).
  - vm_compute; reflexivity.
  - vm_compute; reflexivity.
  - exists m'. split_and!; assumption.
Defined.

Lemma move_assignment_hands_over_the_block_test :
  objects test_objects !! 1%positive = Some {| cb_ := Some 1%positive |}
  ∧ objects test_objects !! 2%positive = Some {| cb_ := Some 2%positive |}
  ∧ ∃ m', assign_move 1%positive 2%positive test_objects = Ok m'
      ∧ objects m' !! 1%positive = Some {| cb_ := Some 2%positive |}
      ∧ objects m' !! 2%positive = Some polymorphic_value_null
      ∧ blocks m' !! 1%positive = None.
Proof.
  split; [vm_compute; reflexivity|]. split; [vm_compute; reflexivity|].
  destruct (move_assignment_hands_over_the_block 1%positive 2%positive test_objects
              {| cb_ := Some 1%positive |} {| cb_ := Some 2%positive |})
    as (m' & H1 & H2 & H3 & _ & _ & H4 & _).
  - discriminate.
  - vm_compute; reflexivity.
  - vm_compute; reflexivity.
  - left. discriminate.
  - intros l [= <-]. vm_compute. eauto.
  - exists m'. split_and!; [exact H1 | exact H2 | exact H3 | exact (H4 _ eq_refl)].
Defined.

Lemma observers_of_full_and_empty_containers_test :
  get {| cb_ := Some 1%positive |} (blocks test_objects)
  = Ok (Some (30%positive, 7%Z))
  ∧ value {| cb_ := Some 1%positive |} (blocks test_objects) = Ok (30%positive, 7%Z)
  ∧ get_as class_of Pos.eqb 31%positive {| cb_ := Some 1%positive |}
      (blocks test_objects) = Ok None
  ∧ value_or polymorphic_value_null (30%positive, 0%Z) (blocks test_objects)
    = Ok (30%positive, 0%Z).
Proof.
  split; [vm_compute; reflexivity|].
  destruct (observers_of_full_and_empty_containers class_of Pos.eqb
              {| cb_ := Some 1%positive |} (blocks test_objects)
              (30%positive, 7%Z) (30%positive, 0%Z) 31%positive)
    as [(_ & _ & _ & H1 & _ & H2 & _) (_ & H3 & _)].
  - vm_compute; reflexivity.
  - split_and!; [exact H1 | exact H2 | exact H3].
Defined.


Lemma converting_move_keeps_the_object_test :
  get {| cb_ := Some 2%positive |} (blocks test_objects)
  = Ok (Some (31%positive, 9%Z))
  ∧ ∃ r h',
      assign_convert_move {| cb_ := Some 1%positive |} {| cb_ := Some 2%positive |}
        (blocks test_objects) = Ok (r, polymorphic_value_null, h')
      ∧ get r h' = Ok (Some (31%positive, 9%Z))
      ∧ h' !! 1%positive = None.
Proof.
  split; [vm_compute; reflexivity|].
  destruct (converting_move_keeps_the_object class_of {| cb_ := Some 2%positive |}
              {| cb_ := Some 1%positive |} (blocks test_objects) (31%positive, 9%Z))
    as [_ (r & h' & H1 & H2 & _ & H3 & _)].
  - vm_compute; reflexivity.
  - intros l [= <-]. vm_compute. eauto.
  - discriminate.
  - exists r, h'. split_and!; [exact H1 | exact H2 | exact (H3 _ eq_refl)].
Defined.

Lemma converting_copy_wraps_a_clone_test :
  blocks test_objects !! 2%positive
  = Some (pointer_control_block 31%positive (Some (31%positive, 9%Z))
            default_copy default_delete)
  ∧ ∃ r h',
      polymorphic_value_convert_copy copy_as {| cb_ := Some 2%positive |}
        (blocks test_objects) = Ok (r, h')
      ∧ get r h' = Ok (Some (31%positive, 9%Z))
      ∧ polymorphic_value_type class_of r h' = Ok 31%positive
      ∧ cb_ r ≠ Some 2%positive.
Proof.
  split; [vm_compute; reflexivity|].
  destruct (converting_copy_wraps_a_clone class_of copy_as {| cb_ := Some 2%positive |}
              {| cb_ := Some 1%positive |} (blocks test_objects) 2%positive
              (pointer_control_block 31%positive (Some (31%positive, 9%Z))
                 default_copy default_delete)
              (pointer_control_block 31%positive (Some (31%positive, 9%Z))
                 default_copy default_delete))
    as [(r & h' & H1 & H2 & H3 & H4 & _) _].
  - reflexivity.
  - vm_compute; reflexivity.
  - vm_compute; reflexivity.
  - intros l [= <-]. vm_compute. eauto.
  - discriminate.
  - exists r, h'. split_and!; [exact H1 | exact H2 | exact H3 | exact H4].
Defined.

Lemma conversion_of_an_empty_container_test :
  is_Some (blocks test_objects !! 1%positive)
  ∧ (∃ r h',
       polymorphic_value_convert_move polymorphic_value_null (blocks test_objects)
       = Ok (r, polymorphic_value_null, h')
       ∧ operator_bool r = true
       ∧ get r h' = Undefined)
  ∧ ∃ h',
      assign_convert_copy copy_as {| cb_ := Some 1%positive |} polymorphic_value_null
        (blocks test_objects) = Ok (polymorphic_value_null, h')
      ∧ h' !! 1%positive = None.
Proof.
  split; [vm_compute; eauto|].
  destruct (conversion_of_an_empty_container class_of copy_as
              {| cb_ := Some 1%positive |} (blocks test_objects))
    as [(r & h' & _ & H1 & H2 & _ & H3 & _) (h2 & H4 & _ & H5 & _)].
  - intros l [= <-]. vm_compute. eauto.
  - split.
    + exists r, h'. split_and!; [exact H1 | exact H2 | exact H3].
    + exists h2. split; [exact H4 | exact (H5 _ eq_refl)].
Defined.

Lemma pipe_of_chains_concatenates_copies_test :
  chain_ok test_blocks test_chain = true
  ∧ ∃ c h',
      ExecutionChain.pipe test_chain test_chain test_blocks = Ok (c, h')
      ∧ chain_ok h' c = true
      ∧ ∃ h'' args', ExecutionChain.Execute c h' 0%Z = Ok (h'', args').
Proof.
  split; [vm_compute; reflexivity|].
  destruct (pipe_of_chains_concatenates_copies test_chain test_chain test_blocks 0%Z)
    as (c & h' & bl & br & H1 & _ & _ & _ & H2 & _ & _ & h'' & H3).
  - vm_compute; reflexivity.
  - vm_compute; reflexivity.
  - exists c, h'. split_and!; [exact H1 | exact H2 |]. eauto.
Defined.

Lemma action_without_bool_always_continues_test :
  returns_bool (Lambda Z) = false
  ∧ TryFallback.Execute (Try.Fallback (Try.Build (add_to 5)) halve) 1%Z
    = (TryFallback.Build (add_to 5) halve, 6%Z, true)
  ∧ (IfThenElse.Execute
       (IfThen.Else (If.Then (If.Build greater_than_five) (add_to 5)) nothing) 1%Z).2
    = true.
Proof.
  split; [reflexivity|].
  destruct (action_without_bool_always_continues greater_than_five (add_to 5)
              halve nothing 1%Z) as (H1 & _ & _ & H2).
  - reflexivity.
  - split; [exact H1 | exact (H2 eq_refl)].
Defined.

Lemma copy_then_clear_restores_the_heap_test :
  chain_ok test_blocks test_chain = true
  ∧ ∃ c2 h1,
      ExecutionChain.copy test_chain test_blocks = Ok (c2, h1)
      ∧ size h1 = 4
      ∧ ExecutionChain.clear c2 h1 = Ok (ExecutionChain.empty, test_blocks).
Proof.
  split; [vm_compute; reflexivity|].
  destruct (copy_then_clear_restores_the_heap test_chain test_blocks)
    as (c2 & h1 & H1 & _ & H2 & H3).
  - vm_compute; reflexivity.
  - exists c2, h1. split_and!; [exact H1 | | exact H3].
    rewrite H2. vm_compute. reflexivity.
Defined.

Lemma assignment_of_a_pointer_test :
  objects test_objects !! 1%positive = Some {| cb_ := Some 1%positive |}
  ∧ assign_pointer class_of 1%positive 31%positive (Some (30%positive, 4%Z)) test_objects
    = Throw bad_polymorphic_value_construction
  ∧ ∃ m' p',
      assign_pointer class_of 1%positive 30%positive (Some (30%positive, 4%Z))
        test_objects = Ok m'
      ∧ objects m' !! 1%positive = Some p'
      ∧ get p' (blocks m') = Ok (Some (30%positive, 4%Z))
      ∧ blocks m' !! 1%positive = None.
Proof.
  split; [vm_compute; reflexivity|].
  destruct (assignment_of_a_pointer class_of 1%positive 31%positive
              (Some (30%positive, 4%Z)) test_objects {| cb_ := Some 1%positive |})
    as ([_ Hthrow] & _ & _).
  - vm_compute; reflexivity.
  - intros l [= <-]. vm_compute. eauto.
  - split.
    + apply Hthrow. exists (30%positive, 4%Z). split; [reflexivity|].
      vm_compute. discriminate.
    + exists {| objects := <[1%positive := {| cb_ := Some 3%positive |}]>
                             (objects test_objects);
                blocks := delete 1%positive
                            (<[3%positive := pointer_control_block 30%positive
                                               (Some (30%positive, 4%Z))
                                               default_copy default_delete]>
                               (blocks test_objects)) |},
             {| cb_ := Some 3%positive |}.
      vm_compute. split_and!; reflexivity.
Defined.
